(** * AI-Trip orchestrator: location extraction, intent detection, dispatch

    A shallow embedding of [src/orchestrator.py].

    Python strings are modelled as lists of code points in the range
    0..255 (type [ascii]); on that range the string primitives below
    ([lower], [strip], [split], the regular-expression classes [\s], [\w],
    [\b] and case-insensitive matching) follow CPython's [str] and [re].
    Beyond it they do not (U+0130 and U+0131 fold to [i] when case is
    ignored): a statement that rests on which characters a pattern takes
    as letters is made of ASCII text, by a hypothesis [is_ascii].
    The spaCy model, the weather agent and the places agent are not part
    of the file under study: they are parameters of the development. *)

From Stdlib Require Import Ascii String List Bool Arith ZArith Lia.
Import ListNotations.
Open Scope string_scope.
Open Scope list_scope.
Open Scope nat_scope.
Open Scope bool_scope.

Set Implicit Arguments.

(** ** Strings *)

Definition str := list ascii.

Definition lit (s : string) : str := list_ascii_of_string s.
Arguments lit s%_string.

Definition code (c : ascii) : nat := nat_of_ascii c.

Definition between (lo hi n : nat) : bool := (lo <=? n) && (n <=? hi).

(** [str.lower] on one code point: A-Z, and the Latin-1 capitals
    U+00C0..U+00DE except the multiplication sign U+00D7. *)
Definition lower_char (c : ascii) : ascii :=
  let n := code c in
  if between 65 90 n || between 192 214 n || between 216 222 n
  then ascii_of_nat (n + 32) else c.

(** Simple upper-case mapping, used by case-insensitive ranges.  The
    upper-case forms of U+00B5 and U+00FF lie outside 0..255; they are
    left in place, which gives the same answer for every range whose
    bounds are in 0..255. *)
Definition upper_char (c : ascii) : ascii :=
  let n := code c in
  if between 97 122 n || between 224 246 n || between 248 254 n
  then ascii_of_nat (n - 32) else c.

(** [str.isspace] on one code point; also the class [\s] of [re]. *)
Definition is_space (c : ascii) : bool :=
  let n := code c in
  between 9 13 n || between 28 32 n || (n =? 133) || (n =? 160).

(** The class [\w] of [re] for [str] patterns: alphanumeric or underscore. *)
Definition is_word (c : ascii) : bool :=
  let n := code c in
  between 48 57 n || between 65 90 n || between 97 122 n || (n =? 95)
  || (n =? 170) || (n =? 178) || (n =? 179) || (n =? 181)
  || between 185 186 n || between 188 190 n
  || between 192 214 n || between 216 246 n || between 248 255 n.

Definition lower (s : str) : str := map lower_char s.

Fixpoint str_eqb (a b : str) : bool :=
  match a, b with
  | [], [] => true
  | x :: a', y :: b' => Ascii.eqb x y && str_eqb a' b'
  | _, _ => false
  end.

(** [x in l] for a list or set of strings. *)
Definition str_in (x : str) (l : list str) : bool := existsb (str_eqb x) l.

Fixpoint lstrip (s : str) : str :=
  match s with
  | [] => []
  | c :: tl => if is_space c then lstrip tl else s
  end.

Definition rstrip (s : str) : str := rev (lstrip (rev s)).

(** [s.strip()] *)
Definition strip (s : str) : str := rstrip (lstrip s).

(** [s.split()]: the maximal runs of non-whitespace characters.
    [cur] is the run being read, in reverse. *)
Fixpoint split_aux (cur : str) (s : str) : list str :=
  match s with
  | [] => match cur with [] => [] | _ => [rev cur] end
  | c :: tl =>
      if is_space c
      then match cur with
           | [] => split_aux [] tl
           | _ => rev cur :: split_aux [] tl
           end
      else split_aux (c :: cur) tl
  end.

Definition split (s : str) : list str := split_aux [] s.

(** [sep.join(l)] *)
Fixpoint join (sep : str) (l : list str) : str :=
  match l with
  | [] => []
  | [x] => x
  | x :: tl => x ++ sep ++ join sep tl
  end.

Fixpoint starts_with (p s : str) : bool :=
  match p, s with
  | [], _ => true
  | x :: p', y :: s' => Ascii.eqb x y && starts_with p' s'
  | _ :: _, [] => false
  end.

(** [sub in s] *)
Fixpoint contains (sub s : str) : bool :=
  starts_with sub s ||
  match s with
  | [] => false
  | _ :: tl => contains sub tl
  end.

Fixpoint find_from (i : Z) (sub s : str) : Z :=
  if starts_with sub s then i
  else match s with
       | [] => (-1)%Z
       | _ :: tl => find_from (i + 1)%Z sub tl
       end.

(** [s.find(sub)]: lowest index of [sub] in [s], or -1. *)
Definition find (s sub : str) : Z := find_from 0%Z sub s.

(** [s[:n]], where a negative [n] counts from the end. *)
Definition slice_to (s : str) (n : Z) : str :=
  if (0 <=? n)%Z then firstn (Z.to_nat n) s
  else firstn (length s - Z.to_nat (- n)) s.

(** [s.replace(old, new)] for a one-character [old]. *)
Definition replace (old : ascii) (new : str) (s : str) : str :=
  flat_map (fun c => if Ascii.eqb c old then new else [c]) s.

(** Truth value of an optional string: [None] and [""] are false. *)
Definition truthy (o : option str) : bool :=
  match o with
  | Some (_ :: _) => true
  | _ => false
  end.

(** ** Regular expressions: a backtracking matcher in the manner of [re] *)

Inductive cset_item : Type :=
| CLit (c : ascii)              (* a literal character *)
| CRange (lo hi : ascii)        (* lo-hi *)
| CSpace.                       (* \s *)

Inductive regex : Type :=
| Eps
| Chr (items : list cset_item)  (* a literal, a class escape or a set [...] *)
| Seq (r1 r2 : regex)
| Alt (r1 r2 : regex)           (* r1|r2, left alternative first *)
| Star (greedy : bool) (r : regex)   (* r* and r*? *)
| WordB                         (* \b *)
| EndA.                         (* $ *)

Definition Plus (greedy : bool) (r : regex) : regex := Seq r (Star greedy r).
Definition Opt (r : regex) : regex := Alt r Eps.

Fixpoint Word (w : str) : regex :=
  match w with
  | [] => Eps
  | c :: tl => Seq (Chr [CLit c]) (Word tl)
  end.

Fixpoint AltOf (l : list regex) : regex :=
  match l with
  | [] => Chr []
  | [r] => r
  | r :: tl => Alt r (AltOf tl)
  end.

Definition item_mem (icase : bool) (it : cset_item) (c : ascii) : bool :=
  match it with
  | CLit a =>
      if icase then Ascii.eqb (lower_char c) (lower_char a) else Ascii.eqb c a
  | CRange lo hi =>
      if icase
      then between (code lo) (code hi) (code (lower_char c))
           || between (code lo) (code hi) (code (upper_char (lower_char c)))
      else between (code lo) (code hi) (code c)
  | CSpace => is_space c
  end.

Definition cset_mem (icase : bool) (items : list cset_item) (c : ascii) : bool :=
  existsb (fun it => item_mem icase it c) items.

(** A position in the subject: the character before it, and what follows. *)
Record mstate : Type := MState { prev : option ascii; rest : str }.

Definition opt_word (o : option ascii) : bool :=
  match o with Some c => is_word c | None => false end.

Definition at_boundary (st : mstate) : bool :=
  xorb (opt_word (prev st)) (opt_word (hd_error (rest st))).

(** [$] without MULTILINE: the end, or just before a final newline. *)
Definition at_end (st : mstate) : bool :=
  match rest st with
  | [] => true
  | [c] => code c =? 10
  | _ => false
  end.

Definition shorter (a b : mstate) : bool :=
  length (rest a) <? length (rest b).

(** The loop of [r*] and [r*?]: [step] matches the body once; an
    iteration has to consume a character.  [fuel] bounds the number of
    iterations by the length of what is left to read. *)
Fixpoint star_loop (A : Type) (greedy : bool)
    (step : mstate -> (mstate -> option A) -> option A)
    (k : mstate -> option A) (fuel : nat) (st : mstate) {struct fuel}
    : option A :=
  match fuel with
  | 0 => k st
  | S fuel' =>
      let again st1 :=
        if shorter st1 st then star_loop greedy step k fuel' st1 else None in
      if greedy
      then match step st again with
           | Some x => Some x
           | None => k st
           end
      else match k st with
           | Some x => Some x
           | None => step st again
           end
  end.

(** [rmatch icase r st k]: match [r] at [st], then continue with [k];
    alternatives are tried in the order in which [re] backtracks. *)
Fixpoint rmatch (A : Type) (icase : bool) (r : regex) (st : mstate)
    (k : mstate -> option A) {struct r} : option A :=
  match r with
  | Eps => k st
  | Chr items =>
      match rest st with
      | [] => None
      | c :: tl => if cset_mem icase items c then k (MState (Some c) tl) else None
      end
  | Seq r1 r2 => rmatch icase r1 st (fun st1 => rmatch icase r2 st1 k)
  | Alt r1 r2 =>
      match rmatch icase r1 st k with
      | Some x => Some x
      | None => rmatch icase r2 st k
      end
  | Star greedy r1 =>
      star_loop greedy (fun st1 k1 => rmatch icase r1 st1 k1) k
                (length (rest st)) st
  | WordB => if at_boundary st then k st else None
  | EndA => if at_end st then k st else None
  end.

(** The text between two positions of the same subject. *)
Definition span (a b : mstate) : str :=
  firstn (length (rest a) - length (rest b)) (rest a).

(** A pattern with one mandatory capturing group: [before(group)after]. *)
Record pattern : Type :=
  Pattern { p_before : regex; p_group : regex; p_after : regex }.

(** Match at one position; the result is the text of group 1. *)
Definition match_at (icase : bool) (p : pattern) (st : mstate) : option str :=
  rmatch icase (p_before p) st (fun s1 =>
    rmatch icase (p_group p) s1 (fun s2 =>
      rmatch icase (p_after p) s2 (fun _ => Some (span s1 s2)))).

Fixpoint search_from (icase : bool) (p : pattern) (pv : option ascii) (s : str)
    : option str :=
  match match_at icase p (MState pv s) with
  | Some g => Some g
  | None =>
      match s with
      | [] => None
      | c :: tl => search_from icase p (Some c) tl
      end
  end.

(** [re.search(p, s, flags).group(1)], or [None] when nothing matches. *)
Definition re_search (icase : bool) (p : pattern) (s : str) : option str :=
  search_from icase p None s.

(** [re.findall(r, s)] for a pattern without groups: the non-overlapping
    matches, left to right.  [skip] counts the characters still covered by
    the match found last. *)
Fixpoint findall_from (r : regex) (pv : option ascii) (s : str) (skip : nat)
    : list str :=
  match s with
  | [] =>
      match skip, rmatch false r (MState pv []) Some with
      | 0, Some _ => [[]]
      | _, _ => []
      end
  | c :: tl =>
      match skip with
      | S n => findall_from r (Some c) tl n
      | 0 =>
          match rmatch false r (MState pv s) Some with
          | Some st' =>
              span (MState pv s) st'
                :: findall_from r (Some c) tl
                     (length s - length (rest st') - 1)
          | None => findall_from r (Some c) tl 0
          end
      end
  end.

Definition re_findall (r : regex) (s : str) : list str :=
  findall_from r None s 0.

Fixpoint Cat (l : list regex) : regex :=
  match l with
  | [] => Eps
  | [r] => r
  | r :: tl => Seq r (Cat tl)
  end.

(** ** Location extraction: the regex fallback *)

Definition ws : regex := Chr [CSpace].
Definition upper_AZ : cset_item := CRange "A" "Z".
Definition lower_az : cset_item := CRange "a" "z".
Definition words (l : list string) : regex := AltOf (map (fun w => Word (lit w)) l).

(** [(?:[,.!?]|$)] *)
Definition terminator : regex :=
  Alt (Chr [CLit ","; CLit "."; CLit "!"; CLit "?"]) EndA.

(** [([A-Z][A-Za-z\s]+?)] *)
Definition phrase : regex :=
  Seq (Chr [upper_AZ]) (Plus false (Chr [upper_AZ; lower_az; CSpace])).

(** [[A-Z][A-Za-z]+] *)
Definition capword : regex :=
  Seq (Chr [upper_AZ]) (Plus true (Chr [upper_AZ; lower_az])).

Definition pattern1 : pattern :=
  Pattern
    (Cat [WordB; words ["visit"; "go"; "travel"; "trip"]; Plus true ws;
          Opt (Seq (Word (lit "some")) (Plus true ws));
          Opt (Seq (Word (lit "places")) (Plus true ws));
          words ["in"; "at"; "to"; "near"]; Plus true ws])
    phrase
    terminator.

Definition pattern2 : pattern :=
  Pattern
    (Cat [WordB; words ["in"; "at"; "to"; "near"]; Plus true ws])
    phrase
    terminator.

Definition pattern3 : pattern :=
  Pattern
    (Cat [WordB; words ["visit"; "go"; "travel"]; Plus true ws;
          Opt (Seq (Word (lit "to")) (Plus true ws))])
    (Seq capword (Opt (Seq (Plus true ws) capword)))
    terminator.

Definition patterns : list pattern := [pattern1; pattern2; pattern3].

(** [[A-Z][a-zA-Z]+(?:\s+[A-Z][a-zA-Z]+)*] *)
Definition capitals_re : regex :=
  Seq capword (Star true (Seq (Plus true ws) capword)).

Definition filler_words : list str :=
  map lit ["some"; "places"; "any"; "the"; "many"; "few"; "several"].

Definition NON_LOCATIONS : list str :=
  map lit ["ok"; "yes"; "no"; "hi"; "hey"; "hello"; "thanks"; "i"].

(** Lines 64-71: the captured phrase without its filler words. *)
Definition clean_candidate (group1 : str) : str :=
  let candidate := strip group1 in
  let words := split candidate in
  let words := filter (fun w => negb (str_in (lower w) filler_words)) words in
  strip (join (lit " ") words).

(** Lines 61-74: the loop over the patterns. *)
Fixpoint try_patterns (ps : list pattern) (text_clean : str) : option str :=
  match ps with
  | [] => None
  | p :: ps' =>
      match re_search true p text_clean with
      | Some group1 =>
          let candidate := clean_candidate group1 in
          if truthy (Some candidate) && (2 <? length candidate)
          then Some (lower candidate)
          else try_patterns ps' text_clean
      | None => try_patterns ps' text_clean
      end
  end.

(** Lines 80-82: the loop over the capitalized runs, last one first. *)
Fixpoint first_location (caps : list str) : option str :=
  match caps with
  | [] => None
  | cap :: caps' =>
      if negb (str_in (lower cap) NON_LOCATIONS)
      then Some (lower cap)
      else first_location caps'
  end.

Definition extract_location_fallback (text : str) : option str :=
  let text_norm := replace "'" (lit "'") text in
  let text_clean := strip text_norm in
  match try_patterns patterns text_clean with
  | Some loc => Some loc
  | None =>
      let capitals := re_findall capitals_re text_norm in
      first_location (rev capitals)
  end.

(** ** Intent detection *)

Definition weather_keywords : list str :=
  map lit ["weather"; "temperature"; "climate"; "rain"; "snow";
           "sunny"; "forecast"; "humidity"; "wind"].

Definition places_keywords : list str :=
  map lit ["places"; "attractions"; "visit"; "tourist"; "things to do";
           "plan my trip"; "plan my visit"; "sightseeing"; "travel guide";
           "where to go"].

Definition detect_intent (query : str) : bool * bool :=
  let q := lower query in
  let wants_weather := existsb (fun k => contains k q) weather_keywords in
  let wants_places := existsb (fun k => contains k q) places_keywords in
  let wants_places :=
    if negb (wants_weather || wants_places) then true else wants_places in
  (wants_weather, wants_places).

(** ** Location extraction with the NER model *)

(** An entity of a spaCy document: its text and its label. *)
Record entity : Type := Entity { ent_text : str; ent_label : str }.

(** The loaded model maps a text to the entities of its document. *)
Definition ner_model : Type := str -> list entity.

Definition location_keywords : list str :=
  map lit ["in"; "at"; "to"; "near"; "visit"; "go"; "travel"; "trip"].

(** Lines 34-37: is a keyword found before the first occurrence of [loc]? *)
Definition keyword_before (text_lower loc : str) : bool :=
  let loc_pos := find text_lower (lower loc) in
  let prefix := slice_to text_lower loc_pos in
  existsb (fun keyword => contains keyword prefix) location_keywords.

(** Lines 33-38: the loop over the locations. *)
Fixpoint first_after_keyword (text_lower : str) (locs : list str) : option str :=
  match locs with
  | [] => None
  | loc :: locs' =>
      if keyword_before text_lower loc then Some (lower loc)
      else first_after_keyword text_lower locs'
  end.

(** Line 26: the texts of the entities labelled GPE or LOC, in order. *)
Definition location_entities (doc : list entity) : list str :=
  map ent_text
    (filter (fun ent => str_in (ent_label ent) [lit "GPE"; lit "LOC"]) doc).

Definition extract_location_nlp (nlp : option ner_model) (text : str)
    : option str :=
  match nlp with
  | None => extract_location_fallback text
  | Some model =>
      let doc := model text in
      let locations := location_entities doc in
      match locations with
      | _ :: _ =>
          let text_lower := lower text in
          match first_after_keyword text_lower locations with
          | Some loc => Some loc
          | None => Some (lower (last locations []))
          end
      | [] => extract_location_fallback text
      end
  end.

Definition extract_location (nlp : option ner_model) (text : str) : option str :=
  extract_location_nlp nlp text.

(** ** The orchestrator *)

(** Calls to the two agents are the observable effects of a query. *)
Inductive agent_call : Type :=
| CallWeather (location : str)
| CallPlaces (location : str).

(** A computation returns a value and the calls it made, in order. *)
Definition Agents (A : Type) : Type := A * list agent_call.

Definition ret {A} (x : A) : Agents A := (x, []).

Definition bind {A B} (m : Agents A) (f : A -> Agents B) : Agents B :=
  let (x, log1) := m in
  let (y, log2) := f x in
  (y, log1 ++ log2).

Notation "x <- m ;; k" := (bind m (fun x => k))
  (at level 61, m at next level, right associativity).

Definition NO_LOCATION_MESSAGE : str :=
  lit "I'm not sure which location you are referring to. Please provide the city name.".

Definition NO_INTENT_MESSAGE : str :=
  lit "Please ask about the weather or places to visit for a specific location.".

Definition blank_line : str := ["010"; "010"]%char.

Section Orchestrator.

(** The process-wide model ([None] when it could not be loaded) and the
    two agents of [src.weather_agent] and [src.places_agent]. *)
Variable nlp : option ner_model.
Variable get_weather_info : str -> str.
Variable get_places_info : str -> str.

Definition call_weather (location : str) : Agents str :=
  (get_weather_info location, [CallWeather location]).

Definition call_places (location : str) : Agents str :=
  (get_places_info location, [CallPlaces location]).

(** Lines 138-144: the responses of the agents that the intent selects. *)
Definition collect_responses (wants_weather wants_places : bool)
    (location : str) : Agents (list str) :=
  responses <- (if wants_weather
                then r <- call_weather location ;; ret [r]
                else ret []) ;;
  responses <- (if wants_places
                then r <- call_places location ;; ret (responses ++ [r])
                else ret responses) ;;
  ret responses.

Definition handle_user_query (query : str) : Agents str :=
  let location := extract_location nlp query in
  if negb (truthy location) then ret NO_LOCATION_MESSAGE
  else
    let location := match location with Some l => l | None => [] end in
    let '(wants_weather, wants_places) := detect_intent query in
    responses <- collect_responses wants_weather wants_places location ;;
    match responses with
    | [] => ret NO_INTENT_MESSAGE
    | _ => ret (join blank_line responses)
    end.

End Orchestrator.

(** ** Specification vocabulary *)

(** [sub] occurs in [s]. *)
Definition Substring (sub s : str) : Prop :=
  exists a b, s = a ++ sub ++ b.

(** The lowercased query contains one of the keywords. *)
Definition has_keyword (keywords : list str) (query : str) : Prop :=
  exists k, In k keywords /\ Substring k (lower query).

(** What the regular expressions denote: [Matches icase r a b] when [r]
    matches the text between the positions [a] and [b]. *)
Inductive Matches (icase : bool) : regex -> mstate -> mstate -> Prop :=
| M_Eps : forall st, Matches icase Eps st st
| M_Chr : forall items pv c tl,
    cset_mem icase items c = true ->
    Matches icase (Chr items) (MState pv (c :: tl)) (MState (Some c) tl)
| M_Seq : forall r1 r2 a b c,
    Matches icase r1 a b -> Matches icase r2 b c ->
    Matches icase (Seq r1 r2) a c
| M_AltL : forall r1 r2 a b,
    Matches icase r1 a b -> Matches icase (Alt r1 r2) a b
| M_AltR : forall r1 r2 a b,
    Matches icase r2 a b -> Matches icase (Alt r1 r2) a b
| M_Star0 : forall g r st, Matches icase (Star g r) st st
| M_StarS : forall g r a b c,
    Matches icase r a b -> shorter b a = true ->
    Matches icase (Star g r) b c ->
    Matches icase (Star g r) a c
| M_WordB : forall st, at_boundary st = true -> Matches icase WordB st st
| M_EndA : forall st, at_end st = true -> Matches icase EndA st st.

(** [b] is a later position of the subject of [a], [mid] lying between. *)
Definition Later (a : mstate) (mid : str) (b : mstate) : Prop :=
  rest a = mid ++ rest b /\
  prev b = match rev mid with c :: _ => Some c | [] => prev a end.

(** The entities of a document are spans of its text: none is empty. *)
Definition entities_nonempty (nlp : option ner_model) : Prop :=
  forall model text ent,
    nlp = Some model -> In ent (model text) -> ent_text ent <> [].

(** No answer of the agents, alone or joined, reads as [message]. *)
Definition agents_avoid (message : str) (weather places : str -> str) : Prop :=
  forall location,
    weather location <> message /\
    places location <> message /\
    weather location ++ blank_line ++ places location <> message.

(** In the lowercased text, a keyword occurs somewhere before an
    occurrence of the lowercased entity [loc]. *)
Definition PrecededByKeyword (text loc : str) : Prop :=
  exists before after keyword,
    lower text = before ++ lower loc ++ after /\
    In keyword location_keywords /\
    Substring keyword before.

(** In the lowercased text, a keyword occurs before the first occurrence
    of the lowercased entity [loc]: what lines 34-37 test. *)
Definition PrecededAtFirstOccurrence (text loc : str) : Prop :=
  exists before after keyword,
    lower text = before ++ lower loc ++ after /\
    (forall before' after',
       lower text = before' ++ lower loc ++ after' ->
       length before <= length before') /\
    In keyword location_keywords /\
    Substring keyword before.

(** The regex tier read as "the first matching pattern wins": the first
    pattern that matches decides, whatever the length of its phrase. *)
Fixpoint first_match_wins (ps : list pattern) (text_clean : str) : option str :=
  match ps with
  | [] => None
  | p :: ps' =>
      match re_search true p text_clean with
      | Some group1 =>
          let candidate := clean_candidate group1 in
          if 2 <? length candidate then Some (lower candidate) else None
      | None => first_match_wins ps' text_clean
      end
  end.

(** The cue words that can stand directly before the captured phrase. *)
Definition prepositions : list str := map lit ["in"; "at"; "to"; "near"].
Definition travel_verbs : list str := map lit ["visit"; "go"; "travel"].
Definition cue_words : list str := prepositions ++ travel_verbs.

Definition is_letter (c : ascii) : bool :=
  between 65 90 (code c) || between 97 122 (code c).

Definition is_terminator (c : ascii) : bool :=
  existsb (Ascii.eqb c) [","; "."; "!"; "?"]%char.

(** A capitalized name: a capital letter, then at least two letters. *)
Definition city_name (s : str) : bool :=
  match s with
  | c :: tl => between 65 90 (code c) && (2 <=? length tl) && forallb is_letter tl
  | [] => false
  end.

(** [s] begins with one of the [cues], in any case, and whitespace. *)
Definition cue_then_space (cues : list str) (s : str) : bool :=
  existsb (fun w =>
             str_eqb (lower (firstn (length w) s)) w
             && match skipn (length w) s with
                | c :: _ => is_space c
                | [] => false
                end)
          cues.

(** The offsets in [s], counted from [i], at which such a cue begins as a
    word of its own: the character before it, [pv] at the start, is not a
    word character, as [\b] before the cue asks. *)
Fixpoint cue_starts (cues : list str) (pv : option ascii) (i : nat) (s : str)
    : list nat :=
  (if negb (opt_word pv) && cue_then_space cues s then [i] else []) ++
  match s with
  | [] => []
  | c :: tl => cue_starts cues (Some c) (S i) tl
  end.

(** Code points 0..127.  Beyond them Python's case folding leaves the
    alphabet modelled here ([U+0130] folds to [i]), so what is said of the
    letters of a text is said of ASCII text. *)
Definition is_ascii (c : ascii) : bool := code c <? 128.

(** A token of [split]: a non-empty run without whitespace. *)
Definition nonspace (c : ascii) : bool := negb (is_space c).

Definition is_token (w : str) : Prop := w <> [] /\ forallb nonspace w = true.

(** ** Vocabulary for the shape of the answers *)

Definition is_upper (c : ascii) : bool := between 65 90 (code c).

Definition letter_or_space (c : ascii) : bool := is_letter c || is_space c.

Definition lower_or_space (c : ascii) : bool :=
  between 97 122 (code c) || is_space c.

Definition not_filler (w : str) : bool := negb (str_in (lower w) filler_words).

(** Every character set of [r] accepts characters of [P] only. *)
Fixpoint sets_within (icase : bool) (P : ascii -> bool) (r : regex) : Prop :=
  match r with
  | Chr items => forall c, cset_mem icase items c = true -> P c = true
  | Seq r1 r2 => sets_within icase P r1 /\ sets_within icase P r2
  | Alt r1 r2 => sets_within icase P r1 /\ sets_within icase P r2
  | Star _ r1 => sets_within icase P r1
  | Eps => True
  | WordB => True
  | EndA => True
  end.

(** ** Sample collaborators, for concrete runs *)

(** A model that tags the capital of Japan wherever it is asked. *)
Definition sample_model : ner_model :=
  fun _ => [Entity (lit "Tokyo") (lit "GPE")].

Definition sample_weather (location : str) : str :=
  lit "Weather for " ++ location.

Definition sample_places (location : str) : str :=
  lit "Places in " ++ location.

(** A model that tags two cities, in the order in which they are named. *)
Definition two_city_model : ner_model :=
  fun _ => [Entity (lit "Paris") (lit "GPE"); Entity (lit "Monday") (lit "DATE");
            Entity (lit "Rome") (lit "GPE")].

(** A model that tags a date and nothing else. *)
Definition date_model : ner_model :=
  fun _ => [Entity (lit "Monday") (lit "DATE")].

(** A model that tags Rome and Oslo, in this order. *)
Definition rome_oslo_model : ner_model :=
  fun _ => [Entity (lit "Rome") (lit "GPE"); Entity (lit "Oslo") (lit "GPE")].

(** ** Facts about characters and strings *)

Lemma lower_char_idem (c : ascii) : lower_char (lower_char c) = lower_char c.
Proof.
  destruct c as [[] [] [] [] [] [] [] []]; reflexivity.
Qed.

Lemma lower_idem (s : str) : lower (lower s) = lower s.
Proof.
  unfold lower. rewrite map_map. apply map_ext. intros c. apply lower_char_idem.
Qed.

Lemma lower_length (s : str) : length (lower s) = length s.
Proof. unfold lower. apply length_map. Qed.

Lemma lower_app (a b : str) : lower (a ++ b) = lower a ++ lower b.
Proof. unfold lower. apply map_app. Qed.

Lemma str_eqb_eq (a b : str) : str_eqb a b = true <-> a = b.
Proof.
  revert b. induction a as [|x a IH]; intros [|y b]; simpl; try (split; congruence).
  rewrite andb_true_iff, Ascii.eqb_eq, IH. split.
  - intros [-> ->]. reflexivity.
  - intros E. injection E as -> ->. split; reflexivity.
Qed.

Lemma str_in_In (x : str) (l : list str) : str_in x l = true <-> In x l.
Proof.
  unfold str_in. rewrite existsb_exists. split.
  - intros (y & Hy & E). apply str_eqb_eq in E. subst. exact Hy.
  - intros H. exists x. split; [exact H | apply str_eqb_eq; reflexivity].
Qed.

Lemma starts_with_app (p s : str) :
  starts_with p s = true <-> exists b, s = p ++ b.
Proof.
  revert s. induction p as [|x p IH]; intros s; simpl.
  - split; [intros _; exists s; reflexivity | reflexivity].
  - destruct s as [|y s].
    + split; [discriminate | intros [b E]; discriminate].
    + rewrite andb_true_iff, Ascii.eqb_eq, IH. split.
      * intros [-> [b ->]]. exists b. reflexivity.
      * intros [b E]. injection E as -> ->. split; [reflexivity | exists b; reflexivity].
Qed.

Lemma contains_Substring (sub s : str) :
  contains sub s = true <-> Substring sub s.
Proof.
  unfold Substring. induction s as [|c s IH]; simpl.
  - rewrite orb_false_r, starts_with_app. split.
    + intros [b E]. exists [], b. exact E.
    + intros (a & b & E). destruct a as [|x a]; [exists b; exact E | discriminate].
  - rewrite orb_true_iff, starts_with_app, IH. split.
    + intros [[b E] | (a & b & E)].
      * exists [], b. exact E.
      * exists (c :: a), b. rewrite E. reflexivity.
    + intros (a & b & E). destruct a as [|x a].
      * left. exists b. exact E.
      * right. injection E as -> ->. exists a, b. reflexivity.
Qed.

Lemma has_keyword_existsb (keywords : list str) (query : str) :
  existsb (fun k => contains k (lower query)) keywords = true
  <-> has_keyword keywords query.
Proof.
  unfold has_keyword. rewrite existsb_exists.
  split; intros (k & Hk & H); exists k; (split; [exact Hk | apply contains_Substring; exact H]).
Qed.

Lemma no_keyword_existsb (keywords : list str) (query : str) :
  ~ has_keyword keywords query ->
  existsb (fun k => contains k (lower query)) keywords = false.
Proof.
  intros H. apply not_true_is_false. intros E. apply H, has_keyword_existsb, E.
Qed.

(** ** The matcher and what the expressions denote *)

Lemma Later_refl (a : mstate) : Later a [] a.
Proof. split; reflexivity. Qed.

Lemma Later_trans (a b c : mstate) (m1 m2 : str) :
  Later a m1 b -> Later b m2 c -> Later a (m1 ++ m2) c.
Proof.
  intros [R1 P1] [R2 P2]. split.
  - rewrite R1, R2, app_assoc. reflexivity.
  - rewrite P2, rev_app_distr. destruct (rev m2); simpl; [exact P1 | reflexivity].
Qed.

Lemma Later_span (a b : mstate) (mid : str) : Later a mid b -> span a b = mid.
Proof.
  intros [R _]. unfold span. rewrite R, length_app.
  replace (length mid + length (rest b) - length (rest b)) with (length mid) by lia.
  rewrite firstn_app, Nat.sub_diag, firstn_all. simpl. apply app_nil_r.
Qed.

Lemma Matches_Later (icase : bool) (r : regex) (a b : mstate) :
  Matches icase r a b -> exists mid, Later a mid b.
Proof.
  induction 1 as [st | items pv c tl Hc | r1 r2 a b c _ [m1 L1] _ [m2 L2]
                 | r1 r2 a b _ IH | r1 r2 a b _ IH | g r st
                 | g r a b c _ [m1 L1] _ _ [m2 L2] | st _ | st _].
  - exists []. apply Later_refl.
  - exists [c]. split; reflexivity.
  - exists (m1 ++ m2). eapply Later_trans; eassumption.
  - exact IH.
  - exact IH.
  - exists []. apply Later_refl.
  - exists (m1 ++ m2). eapply Later_trans; eassumption.
  - exists []. apply Later_refl.
  - exists []. apply Later_refl.
Qed.

Section Matcher.

Variable A : Type.
Variable icase : bool.

Lemma star_loop_sound (g : bool) (r : regex)
    (step : mstate -> (mstate -> option A) -> option A) (k : mstate -> option A) :
  (forall st k1 x, step st k1 = Some x ->
     exists st', Matches icase r st st' /\ k1 st' = Some x) ->
  forall fuel st x,
    star_loop g step k fuel st = Some x ->
    exists st', Matches icase (Star g r) st st' /\ k st' = Some x.
Proof.
  intros Hstep. induction fuel as [|fuel IH]; intros st x; simpl.
  - intros E. exists st. split; [constructor | exact E].
  - set (again := fun st1 => if shorter st1 st then star_loop g step k fuel st1 else None).
    assert (Hagain : step st again = Some x ->
              exists st', Matches icase (Star g r) st st' /\ k st' = Some x).
    { intros E. apply Hstep in E. destruct E as (st1 & M1 & E). unfold again in E.
      destruct (shorter st1 st) eqn:Sh; [|discriminate].
      apply IH in E. destruct E as (st' & M2 & E).
      exists st'. split; [eapply M_StarS; eassumption | exact E]. }
    destruct g.
    + destruct (step st again) as [y|] eqn:E.
      * intros [= <-]. apply Hagain. reflexivity.
      * intros E'. exists st. split; [constructor | exact E'].
    + destruct (k st) as [y|] eqn:E.
      * intros [= <-]. exists st. split; [constructor | exact E].
      * exact Hagain.
Qed.

Lemma rmatch_sound (r : regex) :
  forall st (k : mstate -> option A) x,
    rmatch icase r st k = Some x ->
    exists st', Matches icase r st st' /\ k st' = Some x.
Proof.
  induction r as [| items | r1 IH1 r2 IH2 | r1 IH1 r2 IH2 | g r IH | |];
    intros st k x; simpl.
  - intros E. exists st. split; [constructor | exact E].
  - destruct st as [pv [|c tl]]; simpl; [discriminate|].
    destruct (cset_mem icase items c) eqn:Hc; [|discriminate].
    intros E. eexists. split; [constructor; exact Hc | exact E].
  - intros E. apply IH1 in E. destruct E as (s1 & M1 & E).
    apply IH2 in E. destruct E as (s2 & M2 & E).
    exists s2. split; [econstructor; eassumption | exact E].
  - destruct (rmatch icase r1 st k) as [y|] eqn:E1.
    + intros [= <-]. apply IH1 in E1. destruct E1 as (s1 & M1 & E).
      exists s1. split; [apply M_AltL; exact M1 | exact E].
    + intros E. apply IH2 in E. destruct E as (s1 & M1 & E).
      exists s1. split; [apply M_AltR; exact M1 | exact E].
  - apply star_loop_sound. exact IH.
  - destruct (at_boundary st) eqn:B; [|discriminate].
    intros E. exists st. split; [constructor; exact B | exact E].
  - destruct (at_end st) eqn:B; [|discriminate].
    intros E. exists st. split; [constructor; exact B | exact E].
Qed.

Lemma star_loop_complete (g : bool) (r : regex)
    (step : mstate -> (mstate -> option A) -> option A) (k : mstate -> option A) :
  (forall st st' k1, Matches icase r st st' -> k1 st' <> None -> step st k1 <> None) ->
  forall fuel st st',
    length (rest st) <= fuel ->
    Matches icase (Star g r) st st' -> k st' <> None ->
    star_loop g step k fuel st <> None.
Proof.
  intros Hstep. induction fuel as [|fuel IH]; intros st st' Hfuel M Hk.
  - inversion M as [| | | | | | g' r' a b c Mb Sh Ms | |]; subst; simpl.
    + exact Hk.
    + unfold shorter in Sh. apply Nat.ltb_lt in Sh. lia.
  - simpl.
    set (again := fun st1 => if shorter st1 st then star_loop g step k fuel st1 else None).
    inversion M as [| | | | | | g' r' a b c Mb Sh Ms | |]; subst.
    + destruct g.
      * destruct (step st' again); [discriminate | exact Hk].
      * destruct (k st'); [discriminate | contradiction].
    + assert (Hagain : step st again <> None).
      { apply (Hstep st b); [assumption|]. unfold again. rewrite Sh.
        apply (IH b st'); try assumption.
        unfold shorter in Sh. apply Nat.ltb_lt in Sh. lia. }
      destruct g.
      * destruct (step st again); [discriminate | contradiction].
      * destruct (k st); [discriminate | exact Hagain].
Qed.

Lemma rmatch_complete (r : regex) :
  forall st st' (k : mstate -> option A),
    Matches icase r st st' -> k st' <> None -> rmatch icase r st k <> None.
Proof.
  induction r as [| items | r1 IH1 r2 IH2 | r1 IH1 r2 IH2 | g r IH | |];
    intros st st' k M Hk; simpl.
  - inversion M; subst. exact Hk.
  - inversion M as [| items' pv c tl Hc | | | | | | |]; subst. simpl.
    rewrite Hc. exact Hk.
  - inversion M as [| | r1' r2' a b c M1 M2 | | | | | |]; subst.
    apply (IH1 st b); [assumption|]. apply (IH2 b st'); assumption.
  - inversion M as [| | | r1' r2' a b M1 | r1' r2' a b M2 | | | |]; subst.
    + specialize (IH1 st st' k M1 Hk).
      destruct (rmatch icase r1 st k); [discriminate | contradiction].
    + destruct (rmatch icase r1 st k); [discriminate|].
      apply (IH2 st st'); assumption.
  - apply (star_loop_complete (r := r)) with (st' := st'); auto.
  - inversion M as [| | | | | | | st0 B |]; subst. rewrite B. exact Hk.
  - inversion M as [| | | | | | | | st0 B]; subst. rewrite B. exact Hk.
Qed.

(** The matcher fails exactly when no match can be continued. *)
Lemma rmatch_None (r : regex) (st : mstate) (k : mstate -> option A) :
  rmatch icase r st k = None <->
  (forall st', Matches icase r st st' -> k st' = None).
Proof.
  split.
  - intros E st' M. destruct (k st') eqn:Ek; [|reflexivity].
    exfalso. apply (@rmatch_complete r st st' k M); [rewrite Ek; discriminate | exact E].
  - intros H. destruct (rmatch icase r st k) eqn:E; [|reflexivity].
    apply rmatch_sound in E. destruct E as (st' & M & E).
    rewrite (H st' M) in E. discriminate.
Qed.

End Matcher.

(** ** The fallback returns non-empty lowercase text *)

Lemma lower_nil (s : str) : lower s = [] <-> s = [].
Proof. destruct s; simpl; split; congruence. Qed.

Lemma try_patterns_shape (ps : list pattern) (text_clean loc : str) :
  try_patterns ps text_clean = Some loc ->
  exists candidate, loc = lower candidate /\ 2 < length candidate.
Proof.
  induction ps as [|p ps IH]; cbn [try_patterns]; [discriminate|].
  destruct (re_search true p text_clean) as [group1|]; [|exact IH].
  destruct (truthy (Some (clean_candidate group1)) &&
            (2 <? length (clean_candidate group1))) eqn:E; [|exact IH].
  intros [= <-]. exists (clean_candidate group1). split; [reflexivity|].
  apply andb_true_iff in E. destruct E as [_ E]. apply Nat.ltb_lt in E. exact E.
Qed.

Lemma first_location_shape (caps : list str) (loc : str) :
  first_location caps = Some loc ->
  exists cap, In cap caps /\ loc = lower cap /\ str_in (lower cap) NON_LOCATIONS = false.
Proof.
  induction caps as [|cap caps IH]; cbn [first_location]; [discriminate|].
  destruct (str_in (lower cap) NON_LOCATIONS) eqn:E; cbn [negb].
  - intros H. destruct (IH H) as (c & Hc & Hl). exists c. split; [right; exact Hc | exact Hl].
  - intros [= <-]. exists cap. repeat split; [left; reflexivity | exact E].
Qed.

(** A match of an expression that begins with a character set is not empty. *)
Lemma Matches_Chr_first (icase : bool) (items : list cset_item) (r : regex)
    (a b : mstate) :
  Matches icase (Seq (Chr items) r) a b ->
  exists c mid, Later a (c :: mid) b /\ cset_mem icase items c = true.
Proof.
  intros M. inversion M as [| | r1 r2 a0 b0 c0 M1 M2 | | | | | |]; subst.
  inversion M1 as [| items' pv c tl Hc | | | | | | |]; subst.
  destruct (Matches_Later M2) as [mid L].
  exists c, mid. split; [|exact Hc].
  change (c :: mid) with ([c] ++ mid).
  eapply Later_trans; [|exact L]. split; reflexivity.
Qed.

Lemma capitals_match_nonempty (a b : mstate) :
  Matches false capitals_re a b -> span a b <> [].
Proof.
  intros M. unfold capitals_re, capword in M.
  inversion M as [| | r1 r2 a0 b0 c0 M1 M2 | | | | | |]; subst.
  apply Matches_Chr_first in M1. destruct M1 as (c & mid & L1 & _).
  destruct (Matches_Later M2) as [mid2 L2].
  rewrite (Later_span (Later_trans L1 L2)). discriminate.
Qed.

Lemma findall_capitals_nonempty (s : str) :
  forall pv skip cap, In cap (findall_from capitals_re pv s skip) -> cap <> [].
Proof.
  induction s as [|c tl IH]; intros pv skip cap; cbn [findall_from].
  - replace (rmatch false capitals_re (MState pv []) Some) with (@None mstate)
      by reflexivity.
    destruct skip; intros [].
  - destruct skip as [|n]; [|apply IH].
    destruct (rmatch false capitals_re (MState pv (c :: tl)) Some) as [st'|] eqn:E;
      [|apply IH].
    intros [<- | H]; [|exact (IH _ _ _ H)].
    apply rmatch_sound in E. destruct E as (st1 & M & [= ->]).
    apply capitals_match_nonempty. exact M.
Qed.

Lemma fallback_shape (text loc : str) :
  extract_location_fallback text = Some loc ->
  exists s, s <> [] /\ loc = lower s.
Proof.
  unfold extract_location_fallback.
  destruct (try_patterns patterns (strip (replace "'" (lit "'") text))) as [l|] eqn:E.
  - intros [= <-]. apply try_patterns_shape in E. destruct E as (c & -> & Hlen).
    exists c. split; [|reflexivity]. intros ->. simpl in Hlen. lia.
  - intros H. apply first_location_shape in H. destruct H as (cap & Hin & -> & _).
    exists cap. split; [|reflexivity].
    apply in_rev in Hin. unfold re_findall in Hin.
    eapply findall_capitals_nonempty. exact Hin.
Qed.

Lemma truthy_Some (s : str) : s <> [] -> truthy (Some s) = true.
Proof. destruct s; [congruence | reflexivity]. Qed.

Lemma fallback_answer_wellformed (text loc : str) :
  extract_location_fallback text = Some loc -> loc <> [] /\ lower loc = loc.
Proof.
  intros E. apply fallback_shape in E. destruct E as (s & Hs & ->). split.
  - intros E. apply Hs. apply (proj1 (lower_nil s)). exact E.
  - apply lower_idem.
Qed.

(** C10. Whatever tier of [extract_location_fallback] answers, the answer
    is a non-empty string that equals its own lowercasing; so testing the
    truth value of the answer is the same as testing for [None]. *)
Theorem fallback_location_nonempty_lowercase (text : str) :
  (forall loc, extract_location_fallback text = Some loc ->
     loc <> [] /\ lower loc = loc) /\
  (negb (truthy (extract_location_fallback text)) = true
   <-> extract_location_fallback text = None).
Proof.
  split; [intros loc; apply fallback_answer_wellformed|].
  destruct (extract_location_fallback text) as [loc|] eqn:E.
  - destruct (fallback_answer_wellformed _ E) as [Hne _].
    rewrite (truthy_Some Hne). simpl. split; discriminate.
  - simpl. split; reflexivity.
Qed.

Lemma fallback_location_nonempty_lowercase_witness :
  extract_location_fallback (lit "Tell me about Berlin") = Some (lit "berlin") /\
  lit "berlin" <> [] /\ lower (lit "berlin") = lit "berlin".
Proof.
  split; [vm_compute; reflexivity|].
  apply (proj1 (fallback_location_nonempty_lowercase (lit "Tell me about Berlin"))).
  vm_compute. reflexivity.
Defined.

(** ** Intent detection *)

(** C7. A query with no weather keyword and no places keyword is
    classified as wanting places and not weather. *)
Theorem detect_intent_default (query : str) :
  ~ has_keyword weather_keywords query ->
  ~ has_keyword places_keywords query ->
  detect_intent query = (false, true).
Proof.
  intros Hw Hp. unfold detect_intent.
  rewrite (no_keyword_existsb Hw), (no_keyword_existsb Hp). reflexivity.
Qed.

Lemma no_keyword_check (keywords : list str) (query : str) :
  existsb (fun k => contains k (lower query)) keywords = false ->
  ~ has_keyword keywords query.
Proof.
  intros E H. apply has_keyword_existsb in H. rewrite H in E. discriminate.
Qed.

Lemma detect_intent_default_witness :
  detect_intent (lit "Tell me about Berlin") = (false, true).
Proof.
  apply (@detect_intent_default (lit "Tell me about Berlin"));
    apply no_keyword_check; vm_compute; reflexivity.
Defined.

Lemma detect_intent_flags (query : str) :
  detect_intent query =
  (existsb (fun k => contains k (lower query)) weather_keywords,
   existsb (fun k => contains k (lower query)) places_keywords
   || negb (existsb (fun k => contains k (lower query)) weather_keywords)).
Proof.
  unfold detect_intent.
  destruct (existsb (fun k => contains k (lower query)) weather_keywords),
           (existsb (fun k => contains k (lower query)) places_keywords);
    reflexivity.
Qed.

Lemma detect_intent_some (query : str) :
  fst (detect_intent query) || snd (detect_intent query) = true.
Proof.
  rewrite detect_intent_flags. cbn [fst snd].
  destruct (existsb (fun k => contains k (lower query)) weather_keywords),
           (existsb (fun k => contains k (lower query)) places_keywords);
    reflexivity.
Qed.

(** ** The orchestrator *)

Lemma location_entities_In (doc : list entity) (loc : str) :
  In loc (location_entities doc) -> exists ent, In ent doc /\ ent_text ent = loc.
Proof.
  unfold location_entities. rewrite in_map_iff.
  intros (ent & E & H). apply filter_In in H. exists ent. split; [apply H | exact E].
Qed.

Lemma first_after_keyword_shape (text_lower : str) (locs : list str) (r : str) :
  first_after_keyword text_lower locs = Some r ->
  exists loc, In loc locs /\ r = lower loc.
Proof.
  induction locs as [|loc locs IH]; cbn [first_after_keyword]; [discriminate|].
  destruct (keyword_before text_lower loc).
  - intros [= <-]. exists loc. split; [left; reflexivity | reflexivity].
  - intros H. destruct (IH H) as (l & Hl & E). exists l. split; [right; exact Hl | exact E].
Qed.

Lemma last_In (l : list str) : l <> [] -> In (last l []) l.
Proof.
  induction l as [|x l IH]; [congruence|]. intros _.
  destruct l as [|y l]; [left; reflexivity|].
  right. apply IH. discriminate.
Qed.

(** With the model, the answer is the lowercase text of a GPE/LOC entity,
    unless there is none. *)
Lemma nlp_answer_shape (model : ner_model) (text r : str) :
  location_entities (model text) <> [] ->
  extract_location_nlp (Some model) text = Some r ->
  exists loc, In loc (location_entities (model text)) /\ r = lower loc.
Proof.
  intros Hne. cbn [extract_location_nlp].
  destruct (location_entities (model text)) as [|l0 ls] eqn:E; [congruence|].
  destruct (first_after_keyword (lower text) (l0 :: ls)) as [loc|] eqn:F.
  - intros [= <-]. apply first_after_keyword_shape in F. exact F.
  - intros [= <-]. exists (last (l0 :: ls) []). split; [|reflexivity].
    apply last_In. discriminate.
Qed.

Section OrchestratorFacts.

Variable nlp : option ner_model.
Variable get_weather_info : str -> str.
Variable get_places_info : str -> str.

Lemma extract_location_nonempty (query loc : str) :
  entities_nonempty nlp ->
  extract_location nlp query = Some loc -> loc <> [].
Proof.
  intros Hents. unfold extract_location. destruct nlp as [model|] eqn:En.
  - destruct (location_entities (model query)) as [|l0 ls] eqn:E.
    + cbn [extract_location_nlp]. rewrite E. intros H.
      apply fallback_answer_wellformed in H. apply H.
    + intros H. apply nlp_answer_shape in H; [|rewrite E; discriminate].
      destruct H as (l & Hl & ->). apply location_entities_In in Hl.
      destruct Hl as (ent & Hent & <-). intros E0. apply (proj1 (lower_nil _)) in E0.
      exact (Hents model query ent eq_refl Hent E0).
  - cbn [extract_location_nlp]. intros H.
    apply fallback_answer_wellformed in H. apply H.
Qed.

(** What a query with a location returns, by intent. *)
Lemma handle_found (query loc : str) :
  extract_location nlp query = Some loc -> loc <> [] ->
  handle_user_query nlp get_weather_info get_places_info query =
  match detect_intent query with
  | (true, true) =>
      (get_weather_info loc ++ blank_line ++ get_places_info loc,
       [CallWeather loc; CallPlaces loc])
  | (true, false) => (get_weather_info loc, [CallWeather loc])
  | (false, true) => (get_places_info loc, [CallPlaces loc])
  | (false, false) => (NO_INTENT_MESSAGE, [])
  end.
Proof.
  intros E Hne. unfold handle_user_query. rewrite E.
  rewrite (truthy_Some Hne). cbn [negb].
  destruct (detect_intent query) as [[] []]; reflexivity.
Qed.

Lemma handle_absent (query : str) :
  extract_location nlp query = None ->
  handle_user_query nlp get_weather_info get_places_info query
  = (NO_LOCATION_MESSAGE, []).
Proof.
  intros E. unfold handle_user_query. rewrite E. reflexivity.
Qed.

(** C1. A query with a weather keyword, no places keyword and a location
    calls the weather agent only, and returns exactly its answer. *)
Theorem weather_only_query (query loc : str) :
  entities_nonempty nlp ->
  has_keyword weather_keywords query ->
  ~ has_keyword places_keywords query ->
  extract_location nlp query = Some loc ->
  handle_user_query nlp get_weather_info get_places_info query
  = (get_weather_info loc, [CallWeather loc]).
Proof.
  intros Hents Hw Hp E.
  rewrite (@handle_found query loc E (@extract_location_nonempty query loc Hents E)).
  rewrite detect_intent_flags.
  apply has_keyword_existsb in Hw. rewrite Hw, (no_keyword_existsb Hp).
  reflexivity.
Qed.

(** C2. A query with a weather keyword, a places keyword and a location
    returns the weather answer, a blank line, then the places answer. *)
Theorem weather_and_places_query (query loc : str) :
  entities_nonempty nlp ->
  has_keyword weather_keywords query ->
  has_keyword places_keywords query ->
  extract_location nlp query = Some loc ->
  handle_user_query nlp get_weather_info get_places_info query
  = (get_weather_info loc ++ blank_line ++ get_places_info loc,
     [CallWeather loc; CallPlaces loc]).
Proof.
  intros Hents Hw Hp E.
  rewrite (@handle_found query loc E (@extract_location_nonempty query loc Hents E)).
  rewrite detect_intent_flags.
  apply has_keyword_existsb in Hw. apply has_keyword_existsb in Hp.
  rewrite Hw, Hp. reflexivity.
Qed.

Lemma messages_differ : NO_INTENT_MESSAGE <> NO_LOCATION_MESSAGE.
Proof. intros E. vm_compute in E. discriminate. Qed.

(** C3. Without a location the fixed message is returned and no agent
    is called, whatever the intent; with a location an agent is called.
    So the message with no call is returned exactly when the location is
    absent, and the message alone tells as much when no agent's answer
    reads like it. *)
Theorem no_location_message (query : str) :
  entities_nonempty nlp ->
  (extract_location nlp query = None ->
   handle_user_query nlp get_weather_info get_places_info query
   = (NO_LOCATION_MESSAGE, [])) /\
  (handle_user_query nlp get_weather_info get_places_info query
   = (NO_LOCATION_MESSAGE, []) ->
   extract_location nlp query = None) /\
  (agents_avoid NO_LOCATION_MESSAGE get_weather_info get_places_info ->
   (fst (handle_user_query nlp get_weather_info get_places_info query)
    = NO_LOCATION_MESSAGE
    <-> extract_location nlp query = None)).
Proof.
  intros Hents. split; [apply handle_absent|]. split.
  - destruct (extract_location nlp query) as [loc|] eqn:E; [|reflexivity].
    rewrite (@handle_found query loc E (@extract_location_nonempty query loc Hents E)).
    pose proof (detect_intent_some query) as S.
    destruct (detect_intent query) as [[] []]; try discriminate.
  - intros Hav. split.
    + destruct (extract_location nlp query) as [loc|] eqn:E; [|reflexivity].
      rewrite (@handle_found query loc E (@extract_location_nonempty query loc Hents E)).
      destruct (Hav loc) as (Hw & Hp & Hwp).
      destruct (detect_intent query) as [[] []]; cbn [fst]; intros F;
        try contradiction.
      exfalso. exact (messages_differ F).
    + intros E. rewrite (@handle_absent query E). reflexivity.
Qed.

(** C8. The intent always has a flag set, so the responses collected for
    it are never empty: a query with a location returns the joined
    answers of the agents called, and the prompt of the defensive branch
    is returned only if an agent's answer reads like it. *)
Theorem no_intent_branch_unreachable (query : str) :
  fst (detect_intent query) || snd (detect_intent query) = true /\
  (forall loc,
     fst (collect_responses get_weather_info get_places_info
            (fst (detect_intent query)) (snd (detect_intent query)) loc)
     <> []) /\
  (entities_nonempty nlp ->
   agents_avoid NO_INTENT_MESSAGE get_weather_info get_places_info ->
   fst (handle_user_query nlp get_weather_info get_places_info query)
   <> NO_INTENT_MESSAGE).
Proof.
  pose proof (detect_intent_some query) as S. split; [exact S|]. split.
  - intros loc. destruct (detect_intent query) as [[] []]; discriminate.
  - intros Hents Hav.
    destruct (extract_location nlp query) as [loc|] eqn:E.
    + rewrite (@handle_found query loc E (@extract_location_nonempty query loc Hents E)).
      destruct (Hav loc) as (Hw & Hp & Hwp).
      destruct (detect_intent query) as [[] []]; cbn [fst]; try assumption.
      discriminate.
    + rewrite (@handle_absent query E). cbn [fst]. intros F.
      exact (messages_differ (eq_sym F)).
Qed.

End OrchestratorFacts.

(** ** Concrete runs of the orchestrator *)

Lemma sample_model_nonempty : entities_nonempty (Some sample_model).
Proof.
  intros model text ent [= <-] [<- | []]. discriminate.
Qed.

Lemma no_model_nonempty : entities_nonempty None.
Proof. intros model text ent E. discriminate. Qed.

Lemma keyword_check (keywords : list str) (query : str) :
  existsb (fun k => contains k (lower query)) keywords = true ->
  has_keyword keywords query.
Proof. apply has_keyword_existsb. Qed.

Lemma sample_avoid_no_location :
  agents_avoid NO_LOCATION_MESSAGE sample_weather sample_places.
Proof. intros loc. repeat split; discriminate. Qed.

Lemma sample_avoid_no_intent :
  agents_avoid NO_INTENT_MESSAGE sample_weather sample_places.
Proof. intros loc. repeat split; discriminate. Qed.

Lemma weather_only_query_witness :
  handle_user_query None sample_weather sample_places
    (lit "What's the weather in Tokyo?")
  = (sample_weather (lit "tokyo"), [CallWeather (lit "tokyo")]).
Proof.
  apply (@weather_only_query None sample_weather sample_places
           (lit "What's the weather in Tokyo?") (lit "tokyo")).
  - exact no_model_nonempty.
  - apply keyword_check. vm_compute. reflexivity.
  - apply no_keyword_check. vm_compute. reflexivity.
  - vm_compute. reflexivity.
Defined.

Lemma weather_and_places_query_witness :
  handle_user_query (Some sample_model) sample_weather sample_places
    (lit "Weather and attractions in Tokyo")
  = (sample_weather (lit "tokyo") ++ blank_line ++ sample_places (lit "tokyo"),
     [CallWeather (lit "tokyo"); CallPlaces (lit "tokyo")]).
Proof.
  apply (@weather_and_places_query (Some sample_model) sample_weather sample_places
           (lit "Weather and attractions in Tokyo") (lit "tokyo")).
  - exact sample_model_nonempty.
  - apply keyword_check. vm_compute. reflexivity.
  - apply keyword_check. vm_compute. reflexivity.
  - vm_compute. reflexivity.
Defined.

Lemma no_location_message_witness :
  fst (handle_user_query None sample_weather sample_places (lit "hello there"))
  = NO_LOCATION_MESSAGE
  <-> extract_location None (lit "hello there") = None.
Proof.
  apply (@no_location_message None sample_weather sample_places (lit "hello there")).
  - exact no_model_nonempty.
  - exact sample_avoid_no_location.
Defined.

Lemma no_intent_branch_unreachable_witness :
  fst (handle_user_query (Some sample_model) sample_weather sample_places
         (lit "Tell me more"))
  <> NO_INTENT_MESSAGE.
Proof.
  apply (@no_intent_branch_unreachable (Some sample_model) sample_weather
           sample_places (lit "Tell me more")).
  - exact sample_model_nonempty.
  - exact sample_avoid_no_intent.
Defined.

(** ** The NER path *)

Lemma find_from_first (sub : str) :
  forall s i,
    Substring sub s ->
    exists before after,
      s = before ++ sub ++ after /\
      find_from i sub s = (i + Z.of_nat (length before))%Z /\
      (forall before' after',
         s = before' ++ sub ++ after' -> length before <= length before').
Proof.
  induction s as [|c tl IH]; intros i Hsub; cbn [find_from].
  - destruct (starts_with sub []) eqn:E.
    + apply starts_with_app in E. destruct E as [b E].
      exists [], b. repeat split; [exact E | simpl; lia | intros; simpl; lia].
    + exfalso. destruct Hsub as (a & b & E0).
      destruct a; [|discriminate].
      assert (starts_with sub [] = true) by (apply starts_with_app; exists b; exact E0).
      congruence.
  - destruct (starts_with sub (c :: tl)) eqn:E.
    + apply starts_with_app in E. destruct E as [b E].
      exists [], b. repeat split; [exact E | simpl; lia | intros; simpl; lia].
    + assert (Hno : forall b, c :: tl <> sub ++ b).
      { intros b E0.
        assert (starts_with sub (c :: tl) = true)
          by (apply starts_with_app; exists b; exact E0).
        congruence. }
      destruct Hsub as (a & b & E0). destruct a as [|x a].
      { exfalso. exact (Hno b E0). }
      injection E0 as <- E0.
      destruct (IH (i + 1)%Z) as (before & after & Ee & Ef & Hmin).
      { exists a, b. exact E0. }
      exists (c :: before), after. repeat split.
      * rewrite Ee. reflexivity.
      * rewrite Ef. cbn [length]. lia.
      * intros before' after' E1. destruct before' as [|y before'].
        { exfalso. exact (Hno after' E1). }
        injection E1 as _ E1. cbn [length]. apply le_n_S. exact (Hmin _ _ E1).
Qed.

Lemma slice_to_prefix (before rest0 : str) :
  slice_to (before ++ rest0) (Z.of_nat (length before)) = before.
Proof.
  unfold slice_to.
  replace (0 <=? Z.of_nat (length before))%Z with true
    by (symmetry; apply Z.leb_le; lia).
  rewrite Nat2Z.id, firstn_app, Nat.sub_diag, firstn_all. simpl. apply app_nil_r.
Qed.

Lemma app_same_length (a b c d : str) :
  a ++ b = c ++ d -> length a = length c -> a = c.
Proof.
  revert c. induction a as [|x a IH]; intros [|y c]; simpl; try discriminate.
  - reflexivity.
  - intros E L. injection E as -> E. f_equal. apply IH; [exact E | lia].
Qed.

(** The test of lines 34-37 decides [PrecededAtFirstOccurrence] for an entity
    that occurs in the text. *)
Lemma keyword_before_spec (text loc : str) :
  Substring (lower loc) (lower text) ->
  keyword_before (lower text) loc = true <-> PrecededAtFirstOccurrence text loc.
Proof.
  intros Hsub. unfold keyword_before, find.
  destruct (find_from_first 0 Hsub) as (before & after & Ee & Ef & Hmin).
  assert (Hs : slice_to (lower text) (Z.of_nat (length before)) = before).
  { rewrite Ee at 1. apply slice_to_prefix. }
  rewrite Ef, Z.add_0_l, existsb_exists. split.
  - intros (keyword & Hk & Hc). rewrite Hs in Hc. exists before, after, keyword.
    repeat split; [exact Ee | exact Hmin | exact Hk | apply contains_Substring; exact Hc].
  - intros (before1 & after1 & keyword & E1 & Hmin1 & Hk & Hsb).
    assert (before1 = before) as ->.
    { apply app_same_length with (b := lower loc ++ after1) (d := lower loc ++ after).
      - rewrite <- E1. exact Ee.
      - apply Nat.le_antisymm; [exact (Hmin1 _ _ Ee) | exact (Hmin _ _ E1)]. }
    exists keyword. split; [exact Hk | rewrite Hs; apply contains_Substring; exact Hsb].
Qed.

Lemma Substring_lower (sub s : str) :
  Substring sub s -> Substring (lower sub) (lower s).
Proof.
  intros (a & b & ->). exists (lower a), (lower b). rewrite !lower_app. reflexivity.
Qed.

Lemma first_after_keyword_first (text_lower : str) (locs : list str) :
  forall i loc,
    nth_error locs i = Some loc ->
    keyword_before text_lower loc = true ->
    (forall j loc', j < i -> nth_error locs j = Some loc' ->
                    keyword_before text_lower loc' = false) ->
    first_after_keyword text_lower locs = Some (lower loc).
Proof.
  induction locs as [|l0 locs IH]; intros [|i] loc Hn Hk Hbefore;
    cbn [nth_error first_after_keyword] in *; try discriminate.
  - injection Hn as ->. rewrite Hk. reflexivity.
  - rewrite (Hbefore 0 l0 (Nat.lt_0_succ i) eq_refl).
    apply (IH i loc Hn Hk). intros j loc' Hj Hn'.
    apply (Hbefore (S j) loc'); [lia | exact Hn'].
Qed.

Lemma first_after_keyword_none (text_lower : str) (locs : list str) :
  (forall loc, In loc locs -> keyword_before text_lower loc = false) ->
  first_after_keyword text_lower locs = None.
Proof.
  induction locs as [|l0 locs IH]; intros H; cbn [first_after_keyword]; [reflexivity|].
  rewrite (H l0 (or_introl eq_refl)). apply IH. intros loc Hl. apply H. right. exact Hl.
Qed.

(** The test of lines 34-37 is stronger than an occurrence of a keyword
    somewhere before the entity. *)
Lemma first_occurrence_preceded (text loc : str) :
  PrecededAtFirstOccurrence text loc -> PrecededByKeyword text loc.
Proof.
  intros (before & after & keyword & E & _ & Hk & Hs).
  exists before, after, keyword. split; [exact E|]. split; assumption.
Qed.



Lemma Substring_check (sub s : str) : contains sub s = true -> Substring sub s.
Proof. apply contains_Substring. Qed.


(** ** The regex tier *)

Lemma try_patterns_first (text_clean : str) (ps : list pattern) (r : str) :
  try_patterns ps text_clean = Some r <->
  exists i p group1,
    nth_error ps i = Some p /\
    re_search true p text_clean = Some group1 /\
    2 < length (clean_candidate group1) /\
    r = lower (clean_candidate group1) /\
    (forall j p' g', j < i -> nth_error ps j = Some p' ->
       re_search true p' text_clean = Some g' ->
       length (clean_candidate g') <= 2).
Proof.
  revert r. induction ps as [|p ps IH]; intros r; cbn [try_patterns].
  - split; [discriminate|]. intros ([|i] & p & g & Hn & _); discriminate.
  - assert (Hskip : forall g,
              re_search true p text_clean = Some g -> length (clean_candidate g) <= 2 ->
              truthy (Some (clean_candidate g)) && (2 <? length (clean_candidate g)) = false).
    { intros g _ Hl. apply andb_false_iff. right. apply Nat.ltb_ge. exact Hl. }
    assert (Hnext : try_patterns ps text_clean = Some r ->
              (forall g', re_search true p text_clean = Some g' ->
                          length (clean_candidate g') <= 2) ->
              exists i p0 group1,
                nth_error (p :: ps) i = Some p0 /\
                re_search true p0 text_clean = Some group1 /\
                2 < length (clean_candidate group1) /\
                r = lower (clean_candidate group1) /\
                (forall j p' g', j < i -> nth_error (p :: ps) j = Some p' ->
                   re_search true p' text_clean = Some g' ->
                   length (clean_candidate g') <= 2)).
    { intros H Hp. apply IH in H. destruct H as (i & p0 & g & Hn & Hs & Hl & Hr & Hb).
      exists (S i), p0, g. repeat split; try assumption.
      intros [|j] p' g' Hj Hn' Hs'; cbn [nth_error] in Hn'.
      - injection Hn' as <-. exact (Hp g' Hs').
      - apply (Hb j p' g'); [lia | exact Hn' | exact Hs']. }
    assert (Hback : forall i p0 group1,
              nth_error (p :: ps) (S i) = Some p0 ->
              re_search true p0 text_clean = Some group1 ->
              2 < length (clean_candidate group1) ->
              r = lower (clean_candidate group1) ->
              (forall j p' g', j < S i -> nth_error (p :: ps) j = Some p' ->
                 re_search true p' text_clean = Some g' ->
                 length (clean_candidate g') <= 2) ->
              try_patterns ps text_clean = Some r).
    { intros i p0 g Hn Hs Hl Hr Hb. apply IH. exists i, p0, g.
      repeat split; try assumption.
      intros j p' g' Hj Hn' Hs'. apply (Hb (S j) p' g'); [lia | exact Hn' | exact Hs']. }
    destruct (re_search true p text_clean) as [g0|] eqn:E0.
    + destruct (truthy (Some (clean_candidate g0)) && (2 <? length (clean_candidate g0)))
        eqn:Acc.
      * apply andb_true_iff in Acc. destruct Acc as [_ Acc]. apply Nat.ltb_lt in Acc.
        split.
        -- intros [= <-]. exists 0, p, g0. repeat split; try assumption.
           intros j p' g' Hj. lia.
        -- intros ([|i] & p0 & g & Hn & Hs & Hl & Hr & Hb).
           ++ injection Hn as <-. rewrite E0 in Hs. injection Hs as <-.
              rewrite Hr. reflexivity.
           ++ specialize (Hb 0 p g0 (Nat.lt_0_succ i) eq_refl E0). lia.
      * assert (Hl0 : length (clean_candidate g0) <= 2).
        { apply andb_false_iff in Acc. destruct Acc as [Acc | Acc].
          - destruct (clean_candidate g0); [simpl; lia | discriminate].
          - apply Nat.ltb_ge in Acc. exact Acc. }
        split.
        -- intros H. apply Hnext; [exact H|]. intros g' [= <-]. exact Hl0.
        -- intros ([|i] & p0 & g & Hn & Hs & Hl & Hr & Hb).
           ++ injection Hn as <-. rewrite E0 in Hs. injection Hs as <-. lia.
           ++ eapply Hback; eassumption.
    + split.
      * intros H. apply Hnext; [exact H|]. intros g' Hs'. discriminate.
      * intros ([|i] & p0 & g & Hn & Hs & Hl & Hr & Hb).
        -- injection Hn as <-. rewrite E0 in Hs. discriminate.
        -- eapply Hback; eassumption.
Qed.

(** *** What the pieces of the patterns denote *)

Lemma Later_one (pv : option ascii) (c : ascii) (tl : str) :
  Later (MState pv (c :: tl)) [c] (MState (Some c) tl).
Proof. split; reflexivity. Qed.

Lemma Later_cons (a b : mstate) (c : ascii) (tl m : str) :
  rest a = c :: tl -> Later (MState (Some c) tl) m b -> Later a (c :: m) b.
Proof.
  intros E L. change (c :: m) with ([c] ++ m).
  apply Later_trans with (b := MState (Some c) tl); [|exact L].
  split; [exact E | reflexivity].
Qed.

Lemma Matches_Eps_inv (icase : bool) (a b : mstate) :
  Matches icase Eps a b -> a = b.
Proof. intros M. inversion M. reflexivity. Qed.

Lemma Matches_Seq_inv (icase : bool) (r1 r2 : regex) (a c : mstate) :
  Matches icase (Seq r1 r2) a c ->
  exists b, Matches icase r1 a b /\ Matches icase r2 b c.
Proof.
  intros M. inversion M as [| | r1' r2' a0 b c0 M1 M2 | | | | | |]; subst.
  exists b. split; assumption.
Qed.

Lemma Matches_Alt_inv (icase : bool) (r1 r2 : regex) (a b : mstate) :
  Matches icase (Alt r1 r2) a b -> Matches icase r1 a b \/ Matches icase r2 a b.
Proof.
  intros M. inversion M; subst; [left | right]; assumption.
Qed.

Lemma Matches_Chr_inv (icase : bool) (items : list cset_item) (a b : mstate) :
  Matches icase (Chr items) a b ->
  exists c, Later a [c] b /\ cset_mem icase items c = true.
Proof.
  intros M. inversion M as [| items' pv c tl Hc | | | | | | |]; subst.
  exists c. split; [apply Later_one | exact Hc].
Qed.

Lemma Matches_WordB_inv (icase : bool) (a b : mstate) :
  Matches icase WordB a b -> a = b /\ at_boundary a = true.
Proof. intros M. inversion M; subst. split; [reflexivity | assumption]. Qed.

Lemma Matches_EndA_inv (icase : bool) (a b : mstate) :
  Matches icase EndA a b -> a = b /\ at_end a = true.
Proof. intros M. inversion M; subst. split; [reflexivity | assumption]. Qed.

Lemma Matches_Opt_inv (icase : bool) (r : regex) (a b : mstate) :
  Matches icase (Opt r) a b -> Matches icase r a b \/ a = b.
Proof.
  intros M. apply Matches_Alt_inv in M. destruct M as [M | M]; [left; exact M|].
  right. apply Matches_Eps_inv in M. exact M.
Qed.

Lemma Matches_Star_Chr (icase g : bool) (items : list cset_item) (a b : mstate) :
  Matches icase (Star g (Chr items)) a b ->
  exists m, Later a m b /\ forallb (cset_mem icase items) m = true.
Proof.
  intros M. remember (Star g (Chr items)) as r eqn:Er.
  induction M as [| | | | | g' r' st | g' r' a b c M1 _ Sh M2 IH2 | |];
    try discriminate.
  - exists []. split; [apply Later_refl | reflexivity].
  - injection Er as -> ->. destruct (IH2 eq_refl) as (m & L & F).
    apply Matches_Chr_inv in M1. destruct M1 as (x & L1 & Hx).
    exists ([x] ++ m). split; [eapply Later_trans; eassumption|].
    simpl. rewrite Hx, F. reflexivity.
Qed.

Lemma Matches_Plus_Chr (icase g : bool) (items : list cset_item) (a b : mstate) :
  Matches icase (Plus g (Chr items)) a b ->
  exists c m, Later a (c :: m) b /\
              cset_mem icase items c = true /\
              forallb (cset_mem icase items) m = true.
Proof.
  intros M. apply Matches_Seq_inv in M. destruct M as (s1 & M1 & M2).
  apply Matches_Chr_inv in M1. destruct M1 as (c & L1 & Hc).
  apply Matches_Star_Chr in M2. destruct M2 as (m & L2 & F).
  exists c, m. split; [|split; assumption].
  change (c :: m) with ([c] ++ m). eapply Later_trans; eassumption.
Qed.

Lemma Matches_Word (w : str) :
  forall a b,
    Matches true (Word w) a b ->
    exists m, Later a m b /\ lower m = lower w.
Proof.
  induction w as [|x w IH]; intros a b M; cbn [Word] in M.
  - apply Matches_Eps_inv in M. subst. exists []. split; [apply Later_refl | reflexivity].
  - apply Matches_Seq_inv in M. destruct M as (s1 & M1 & M2).
    apply Matches_Chr_inv in M1. destruct M1 as (c & L1 & Hc).
    destruct (IH _ _ M2) as (m & L2 & E).
    exists ([c] ++ m). split; [eapply Later_trans; eassumption|].
    cbn [cset_mem existsb item_mem] in Hc. rewrite orb_false_r in Hc.
    apply Ascii.eqb_eq in Hc. simpl. rewrite Hc, E. reflexivity.
Qed.

Lemma Matches_AltOf (icase : bool) (l : list regex) (a b : mstate) :
  Matches icase (AltOf l) a b -> exists r, In r l /\ Matches icase r a b.
Proof.
  induction l as [|r l IH]; cbn [AltOf].
  - intros M. apply Matches_Chr_inv in M. destruct M as (c & _ & H). discriminate.
  - destruct l as [|r' l].
    + intros M. exists r. split; [left; reflexivity | exact M].
    + intros M. apply Matches_Alt_inv in M. destruct M as [M | M].
      * exists r. split; [left; reflexivity | exact M].
      * destruct (IH M) as (r0 & Hin & M0). exists r0. split; [right; exact Hin | exact M0].
Qed.

Lemma Matches_words (l : list string) (a b : mstate) :
  Matches true (words l) a b ->
  exists w m, In w (map lit l) /\ Later a m b /\ lower m = lower w.
Proof.
  intros M. unfold words in M. apply Matches_AltOf in M.
  destruct M as (r & Hin & M). apply in_map_iff in Hin.
  destruct Hin as (w & <- & Hw). apply Matches_Word in M.
  destruct M as (m & L & E). exists (lit w), m.
  split; [apply in_map; exact Hw | split; assumption].
Qed.

Lemma forallb_same (f g : ascii -> bool) (l : str) :
  (forall x, f x = g x) -> forallb f l = forallb g l.
Proof.
  intros H. induction l as [|x l IH]; [reflexivity|].
  cbn [forallb]. rewrite H, IH. reflexivity.
Qed.

(** [\s+] reads a non-empty run of whitespace. *)
Lemma Matches_spaces (icase g : bool) (a b : mstate) :
  Matches icase (Plus g ws) a b ->
  exists m, Later a m b /\ m <> [] /\ forallb is_space m = true.
Proof.
  intros M. apply Matches_Plus_Chr in M. destruct M as (c & m & L & Hc & F).
  exists (c :: m). split; [exact L|]. split; [discriminate|].
  cbn [cset_mem existsb item_mem] in Hc. rewrite orb_false_r in Hc.
  cbn [forallb]. rewrite Hc. cbn [andb].
  rewrite <- F. apply forallb_same. intros x.
  cbn [cset_mem existsb item_mem]. rewrite orb_false_r. reflexivity.
Qed.

Lemma lower_prepositions (w : str) : In w prepositions -> lower w = w.
Proof. intros [<- | [<- | [<- | [<- | []]]]]; reflexivity. Qed.

Lemma lower_travel_verbs (w : str) : In w travel_verbs -> lower w = w.
Proof. intros [<- | [<- | [<- | []]]]; reflexivity. Qed.

(** In the first two patterns the phrase comes after a preposition cue,
    in any case, and whitespace. *)
Lemma before_preposition (p : pattern) (st s1 : mstate) :
  In p [pattern1; pattern2] ->
  Matches true (p_before p) st s1 ->
  exists m0 cue wsp,
    Later st (m0 ++ cue ++ wsp) s1 /\
    In (lower cue) prepositions /\
    wsp <> [] /\ forallb is_space wsp = true.
Proof.
  intros [<- | [<- | []]]; unfold pattern1, pattern2; cbn [p_before Cat]; intros M.
  - apply Matches_Seq_inv in M. destruct M as (a0 & M0 & M).
    apply Matches_Seq_inv in M. destruct M as (a1 & M1 & M).
    apply Matches_Seq_inv in M. destruct M as (a2 & M2 & M).
    apply Matches_Seq_inv in M. destruct M as (a3 & M3 & M).
    apply Matches_Seq_inv in M. destruct M as (a4 & M4 & M).
    apply Matches_Seq_inv in M. destruct M as (a5 & M5 & M6).
    apply Matches_WordB_inv in M0. destruct M0 as [<- _].
    apply Matches_Later in M1. destruct M1 as [m1 L1].
    apply Matches_Later in M2. destruct M2 as [m2 L2].
    apply Matches_Later in M3. destruct M3 as [m3 L3].
    apply Matches_Later in M4. destruct M4 as [m4 L4].
    apply Matches_words in M5. destruct M5 as (w & cue & Hw & L5 & E5).
    apply Matches_spaces in M6. destruct M6 as (wsp & L6 & Hne & Hsp).
    exists (((m1 ++ m2) ++ m3) ++ m4), cue, wsp. split; [|split; [|split; assumption]].
    + apply (Later_trans (Later_trans (Later_trans (Later_trans L1 L2) L3) L4)
                         (Later_trans L5 L6)).
    + rewrite E5, (lower_prepositions Hw). exact Hw.
  - apply Matches_Seq_inv in M. destruct M as (a0 & M0 & M).
    apply Matches_Seq_inv in M. destruct M as (a5 & M5 & M6).
    apply Matches_WordB_inv in M0. destruct M0 as [<- _].
    apply Matches_words in M5. destruct M5 as (w & cue & Hw & L5 & E5).
    apply Matches_spaces in M6. destruct M6 as (wsp & L6 & Hne & Hsp).
    exists [], cue, wsp. split; [|split; [|split; assumption]].
    + exact (Later_trans L5 L6).
    + rewrite E5, (lower_prepositions Hw). exact Hw.
Qed.

(** In the third pattern it comes after a travel verb, or after [to]. *)
Lemma before_travel_verb (st s1 : mstate) :
  Matches true (p_before pattern3) st s1 ->
  exists m0 cue wsp,
    Later st (m0 ++ cue ++ wsp) s1 /\
    In (lower cue) cue_words /\
    wsp <> [] /\ forallb is_space wsp = true.
Proof.
  unfold pattern3; cbn [p_before Cat]; intros M.
  apply Matches_Seq_inv in M. destruct M as (a0 & M0 & M).
  apply Matches_Seq_inv in M. destruct M as (a1 & M1 & M).
  apply Matches_Seq_inv in M. destruct M as (a2 & M2 & M3).
  apply Matches_WordB_inv in M0. destruct M0 as [<- _].
  apply Matches_words in M1. destruct M1 as (w & cue & Hw & L1 & E1).
  apply Matches_spaces in M2. destruct M2 as (wsp & L2 & Hne & Hsp).
  apply Matches_Opt_inv in M3. destruct M3 as [M3 | <-].
  - apply Matches_Seq_inv in M3. destruct M3 as (a3 & M3 & M4).
    apply Matches_Word in M3. destruct M3 as (to & L3 & E3).
    apply Matches_spaces in M4. destruct M4 as (wsp2 & L4 & Hne2 & Hsp2).
    exists (cue ++ wsp), to, wsp2. split; [|split; [|split; assumption]].
    + exact (Later_trans (Later_trans L1 L2) (Later_trans L3 L4)).
    + rewrite E3. unfold cue_words. apply in_or_app. left.
      right. right. left. reflexivity.
  - exists [], cue, wsp. split; [|split; [|split; assumption]].
    + exact (Later_trans L1 L2).
    + rewrite E1, (lower_travel_verbs Hw). unfold cue_words.
      apply in_or_app. right. exact Hw.
Qed.

(** *** Searching *)

Lemma match_at_sound (icase : bool) (p : pattern) (st : mstate) (g : str) :
  match_at icase p st = Some g ->
  exists s1 s2 s3,
    Matches icase (p_before p) st s1 /\
    Matches icase (p_group p) s1 s2 /\
    Matches icase (p_after p) s2 s3 /\
    g = span s1 s2.
Proof.
  unfold match_at. intros E.
  apply rmatch_sound in E. destruct E as (s1 & M1 & E).
  apply rmatch_sound in E. destruct E as (s2 & M2 & E).
  apply rmatch_sound in E. destruct E as (s3 & M3 & E).
  injection E as <-. exists s1, s2, s3. repeat split; assumption.
Qed.

Lemma match_at_complete (icase : bool) (p : pattern) (st s1 s2 s3 : mstate) :
  Matches icase (p_before p) st s1 ->
  Matches icase (p_group p) s1 s2 ->
  Matches icase (p_after p) s2 s3 ->
  match_at icase p st <> None.
Proof.
  intros M1 M2 M3. unfold match_at.
  apply (rmatch_complete _ M1). apply (rmatch_complete _ M2).
  apply (rmatch_complete _ M3). discriminate.
Qed.

Lemma Later_uncons (pv : option ascii) (c : ascii) (tl m : str) (b : mstate) :
  Later (MState pv (c :: tl)) (c :: m) b -> Later (MState (Some c) tl) m b.
Proof.
  intros [R P]. cbn [rest prev] in *. split.
  - cbn [rest]. simpl in R. injection R as R. exact R.
  - rewrite P. cbn [prev rev]. destruct (rev m); reflexivity.
Qed.

Lemma search_from_sound (icase : bool) (p : pattern) (s : str) :
  forall pv g,
    search_from icase p pv s = Some g ->
    exists m0 st, Later (MState pv s) m0 st /\ match_at icase p st = Some g.
Proof.
  induction s as [|c tl IH]; intros pv g; cbn [search_from].
  - destruct (match_at icase p (MState pv [])) as [g0|] eqn:E; [|discriminate].
    intros [= <-]. exists [], (MState pv []). split; [apply Later_refl | exact E].
  - destruct (match_at icase p (MState pv (c :: tl))) as [g0|] eqn:E.
    + intros [= <-]. exists [], (MState pv (c :: tl)).
      split; [apply Later_refl | exact E].
    + intros H. destruct (IH _ _ H) as (m0 & st & L & Hm).
      exists (c :: m0), st. split; [|exact Hm].
      eapply Later_cons; [reflexivity | exact L].
Qed.

Lemma search_from_complete (icase : bool) (p : pattern) (m0 : str) :
  forall pv s st,
    Later (MState pv s) m0 st ->
    match_at icase p st <> None ->
    search_from icase p pv s <> None.
Proof.
  induction m0 as [|c m0 IH]; intros pv s st L Hm.
  - destruct L as [R P]. cbn [rest prev rev app] in R, P.
    destruct st as [pv' s']. cbn [rest prev] in R, P. subst.
    destruct s' as [|c tl]; cbn [search_from];
      destruct (match_at icase p _); congruence.
  - assert (R := proj1 L). cbn [rest] in R. destruct s as [|c' tl]; [discriminate|].
    simpl in R. injection R as -> R.
    cbn [search_from].
    destruct (match_at icase p (MState pv (c :: tl))); [discriminate|].
    apply (IH (Some c) tl st); [|exact Hm].
    apply Later_uncons with (pv := pv). exact L.
Qed.

Lemma upper_AZ_icase (c : ascii) : cset_mem true [upper_AZ] c = is_letter c.
Proof.
  destruct c as [[] [] [] [] [] [] [] []]; reflexivity.
Qed.

Lemma group_starts_with_letter (p : pattern) (s1 s2 : mstate) :
  In p patterns ->
  Matches true (p_group p) s1 s2 ->
  exists c tl, Later s1 (c :: tl) s2 /\ is_letter c = true.
Proof.
  intros [<- | [<- | [<- | []]]]; unfold pattern1, pattern2, pattern3, phrase, capword;
    cbn [p_group]; intros M.
  - apply Matches_Chr_first in M. destruct M as (c & tl & L & Hc).
    exists c, tl. split; [exact L | rewrite <- upper_AZ_icase; exact Hc].
  - apply Matches_Chr_first in M. destruct M as (c & tl & L & Hc).
    exists c, tl. split; [exact L | rewrite <- upper_AZ_icase; exact Hc].
  - apply Matches_Seq_inv in M. destruct M as (a & M1 & M2).
    apply Matches_Chr_first in M1. destruct M1 as (c & tl & L & Hc).
    apply Matches_Later in M2. destruct M2 as [m2 L2].
    exists c, (tl ++ m2). split; [|rewrite <- upper_AZ_icase; exact Hc].
    exact (Later_trans L L2).
Qed.

Lemma before_cue (p : pattern) (st s1 : mstate) :
  In p patterns ->
  Matches true (p_before p) st s1 ->
  exists m0 cue wsp,
    Later st (m0 ++ cue ++ wsp) s1 /\
    In (lower cue) cue_words /\
    wsp <> [] /\ forallb is_space wsp = true.
Proof.
  intros [E | [E | [<- | []]]] M; [| |apply before_travel_verb; exact M].
  - destruct (@before_preposition p st s1) as (m0 & cue & wsp & L & Hc & H);
      [left; exact E | exact M|].
    exists m0, cue, wsp. split; [exact L|]. split; [|exact H].
    unfold cue_words. apply in_or_app. left. exact Hc.
  - destruct (@before_preposition p st s1) as (m0 & cue & wsp & L & Hc & H);
      [right; left; exact E | exact M|].
    exists m0, cue, wsp. split; [exact L|]. split; [|exact H].
    unfold cue_words. apply in_or_app. left. exact Hc.
Qed.

(** A phrase found by one of the patterns stands in the text after a cue
    word and whitespace, and begins with a letter. *)
Lemma phrase_after_cue (p : pattern) (text g : str) :
  In p patterns ->
  re_search true p text = Some g ->
  exists pre cue wsp post,
    text = pre ++ cue ++ wsp ++ g ++ post /\
    In (lower cue) cue_words /\
    wsp <> [] /\ forallb is_space wsp = true /\
    exists c tl, g = c :: tl /\ is_letter c = true.
Proof.
  intros Hp E. unfold re_search in E. apply search_from_sound in E.
  destruct E as (m0 & st & L0 & E). apply match_at_sound in E.
  destruct E as (s1 & s2 & s3 & M1 & M2 & _ & ->).
  destruct (before_cue Hp M1) as (mb & cue & wsp & L1 & Hc & Hne & Hsp).
  destruct (group_starts_with_letter Hp M2) as (c & tl & L2 & Hl).
  exists (m0 ++ mb), cue, wsp, (rest s2).
  rewrite (Later_span L2).
  split; [|split; [exact Hc | split; [exact Hne | split; [exact Hsp|]]]].
  - destruct L0 as [R0 _]. destruct L1 as [R1 _]. destruct L2 as [R2 _].
    cbn [rest] in R0. rewrite R0, R1, R2, <- !app_assoc. reflexivity.
  - exists c, tl. split; [reflexivity | exact Hl].
Qed.

(** *** Filler words *)

Lemma split_aux_tokens (s : str) :
  forall cur, forallb nonspace cur = true -> Forall is_token (split_aux cur s).
Proof.
  assert (Hrev : forall cur, cur <> [] -> forallb nonspace cur = true ->
                             is_token (rev cur)).
  { intros cur Hne F. split.
    - intros E. apply Hne. rewrite <- (rev_involutive cur), E. reflexivity.
    - apply forallb_forall. intros x Hx. apply in_rev in Hx.
      exact (proj1 (forallb_forall _ _) F x Hx). }
  induction s as [|c tl IH]; intros cur F; cbn [split_aux].
  - destruct cur as [|x cur]; [constructor|].
    constructor; [apply Hrev; [discriminate | exact F] | constructor].
  - destruct (is_space c) eqn:Sp.
    + destruct cur as [|x cur]; [apply IH; reflexivity|].
      constructor; [apply Hrev; [discriminate | exact F] | apply IH; reflexivity].
    + apply IH. cbn [forallb]. unfold nonspace at 1. rewrite Sp. exact F.
Qed.

Lemma split_aux_token (w : str) :
  forall cur s,
    forallb nonspace w = true ->
    split_aux cur (w ++ s) = split_aux (rev w ++ cur) s.
Proof.
  induction w as [|x w IH]; intros cur s F; [reflexivity|].
  cbn [forallb] in F. apply andb_true_iff in F. destruct F as [Fx F].
  unfold nonspace in Fx. apply negb_true_iff in Fx.
  cbn [app split_aux]. rewrite Fx, (IH _ _ F). cbn [rev].
  rewrite <- app_assoc. reflexivity.
Qed.

Lemma join_cons (sep x y : str) (l : list str) :
  join sep (x :: y :: l) = x ++ sep ++ join sep (y :: l).
Proof. reflexivity. Qed.

Lemma split_aux_space (cur s : str) :
  split_aux cur (lit " " ++ s) =
  match cur with
  | [] => split_aux [] s
  | _ :: _ => rev cur :: split_aux [] s
  end.
Proof. reflexivity. Qed.

Lemma split_join (l : list str) :
  Forall is_token l -> split (join (lit " ") l) = l.
Proof.
  unfold split. induction l as [|w l IH]; intros F; [reflexivity|].
  inversion F as [|w0 l0 [Hne Hw] Fl]; subst.
  assert (Hrev : rev w <> []).
  { intros E. apply Hne. rewrite <- (rev_involutive w), E. reflexivity. }
  destruct l as [|w2 l].
  - cbn [join]. rewrite <- (app_nil_r w) at 1.
    rewrite (@split_aux_token w _ _ Hw), app_nil_r. cbn [split_aux].
    destruct (rev w) eqn:E; [congruence|]. rewrite <- E, rev_involutive. reflexivity.
  - rewrite join_cons, (@split_aux_token w _ _ Hw), app_nil_r, split_aux_space.
    destruct (rev w) eqn:E; [congruence|]. rewrite <- E, rev_involutive.
    f_equal. apply IH. exact Fl.
Qed.

Lemma split_aux_trailing_space (c : ascii) (s : str) :
  is_space c = true ->
  forall cur, split_aux cur (s ++ [c]) = split_aux cur s.
Proof.
  intros Sp. induction s as [|x s IH]; intros cur.
  - cbn [app split_aux]. rewrite Sp. destruct cur; reflexivity.
  - cbn [app split_aux]. destruct (is_space x).
    + destruct cur; rewrite IH; reflexivity.
    + apply IH.
Qed.

Lemma rstrip_snoc (s : str) (c : ascii) :
  rstrip (s ++ [c]) = if is_space c then rstrip s else s ++ [c].
Proof.
  unfold rstrip. rewrite rev_app_distr. cbn [rev app lstrip].
  destruct (is_space c); [reflexivity|].
  cbn [rev]. rewrite rev_involutive. reflexivity.
Qed.

Lemma split_rstrip (s : str) : split (rstrip s) = split s.
Proof.
  unfold split. induction s as [|c s IH] using rev_ind; [reflexivity|].
  rewrite rstrip_snoc. destruct (is_space c) eqn:Sp; [|reflexivity].
  rewrite IH, (@split_aux_trailing_space c s Sp). reflexivity.
Qed.

Lemma split_lstrip (s : str) : split (lstrip s) = split s.
Proof.
  unfold split. induction s as [|c s IH]; [reflexivity|].
  cbn [lstrip]. destruct (is_space c) eqn:Sp; [|reflexivity].
  cbn [split_aux]. rewrite Sp. exact IH.
Qed.

Lemma split_strip (s : str) : split (strip s) = split s.
Proof. unfold strip. rewrite split_rstrip. apply split_lstrip. Qed.

Lemma is_space_lower (c : ascii) : is_space (lower_char c) = is_space c.
Proof.
  destruct c as [[] [] [] [] [] [] [] []]; reflexivity.
Qed.

Lemma split_aux_lower (s : str) :
  forall cur, split_aux (lower cur) (lower s) = map lower (split_aux cur s).
Proof.
  unfold lower. induction s as [|c s IH]; intros cur; cbn [map split_aux].
  - destruct cur as [|x cur]; cbn [map rev]; [reflexivity|].
    rewrite map_app, map_rev. reflexivity.
  - rewrite is_space_lower. destruct (is_space c).
    + destruct cur as [|x cur]; cbn [map rev].
      * exact (IH []).
      * rewrite <- (IH []), map_app, map_rev. reflexivity.
    + exact (IH (c :: cur)).
Qed.

Lemma split_lower (s : str) : split (lower s) = map lower (split s).
Proof. exact (split_aux_lower s []). Qed.

(** What is returned holds none of the filler words. *)
Lemma clean_candidate_no_filler (group1 w : str) :
  In w (split (lower (clean_candidate group1))) -> ~ In w filler_words.
Proof.
  unfold clean_candidate. rewrite split_lower, split_strip, split_join.
  - rewrite in_map_iff. intros (w' & <- & Hw'). apply filter_In in Hw'.
    destruct Hw' as [_ Hf]. apply negb_true_iff in Hf.
    intros Hin. apply str_in_In in Hin. congruence.
  - assert (F : Forall is_token (split (strip group1)))
      by (apply split_aux_tokens; reflexivity).
    apply Forall_forall. intros x Hx. apply filter_In in Hx.
    exact (proj1 (Forall_forall _ _) F x (proj1 Hx)).
Qed.

Lemma replace_apostrophe (s : str) : replace "'" (lit "'") s = s.
Proof.
  unfold replace. induction s as [|c s IH]; [reflexivity|].
  cbn [flat_map]. rewrite IH. destruct (Ascii.eqb c "'") eqn:E; [|reflexivity].
  apply Ascii.eqb_eq in E. subst. reflexivity.
Qed.

Lemma fallback_regex_tier (text r : str) :
  try_patterns patterns (strip text) = Some r ->
  extract_location_fallback text = Some r.
Proof.
  intros E. unfold extract_location_fallback.
  rewrite replace_apostrophe, E. reflexivity.
Qed.




(** ** A city named after a preposition *)

(** Two ways to cut a text into a run of [P]-characters and a remainder
    that does not go on with one are the same. *)
Lemma run_unique (P : ascii -> bool) (a b c d : str) :
  forallb P a = true -> forallb P c = true ->
  (forall x tl, b = x :: tl -> P x = false) ->
  (forall x tl, d = x :: tl -> P x = false) ->
  a ++ b = c ++ d -> a = c /\ b = d.
Proof.
  intros Fa Fc Hb Hd E. apply app_eq_app in E.
  destruct E as (l & [[Ea Ed] | [Ec Eb]]); destruct l as [|x l].
  - rewrite app_nil_r in Ea. split; [exact Ea | symmetry; exact Ed].
  - exfalso. rewrite Ea, forallb_app in Fa. apply andb_true_iff in Fa.
    destruct Fa as [_ Fa]. cbn [forallb] in Fa. apply andb_true_iff in Fa.
    rewrite (Hd x (l ++ b) Ed) in Fa. destruct Fa. discriminate.
  - rewrite app_nil_r in Ec. split; [symmetry; exact Ec | exact Eb].
  - exfalso. rewrite Ec, forallb_app in Fc. apply andb_true_iff in Fc.
    destruct Fc as [_ Fc]. cbn [forallb] in Fc. apply andb_true_iff in Fc.
    rewrite (Hb x (l ++ d) Eb) in Fc. destruct Fc. discriminate.
Qed.

Lemma Matches_Word_intro (w : str) :
  forall m a r,
    rest a = m ++ r -> lower m = lower w ->
    exists b, Matches true (Word w) a b /\ rest b = r.
Proof.
  induction w as [|x w IH]; intros [|c m] [pv s] r R E; try discriminate;
    cbn [rest] in R; cbn [Word].
  - exists (MState pv s). split; [constructor | exact R].
  - cbn [lower map] in E. injection E as Ec E. subst s.
    destruct (IH m (MState (Some c) (m ++ r)) r eq_refl E) as (b & M & Rb).
    exists b. split; [|exact Rb].
    eapply M_Seq; [|exact M]. apply M_Chr.
    cbn [cset_mem existsb item_mem]. rewrite Ec, Ascii.eqb_refl. reflexivity.
Qed.

Lemma Matches_AltOf_intro (icase : bool) (l : list regex) (r : regex) (a b : mstate) :
  In r l -> Matches icase r a b -> Matches icase (AltOf l) a b.
Proof.
  intros Hin M. induction l as [|r0 l IH]; [destruct Hin|].
  cbn [AltOf]. destruct l as [|r1 l].
  - destruct Hin as [<- | []]. exact M.
  - destruct Hin as [<- | Hin]; [apply M_AltL; exact M|].
    apply M_AltR. apply IH. exact Hin.
Qed.

Lemma Matches_words_intro (l : list string) (w : string) (m : str) (a : mstate)
    (r : str) :
  In w l -> rest a = m ++ r -> lower m = lower (lit w) ->
  exists b, Matches true (words l) a b /\ rest b = r.
Proof.
  intros Hin R E. destruct (Matches_Word_intro (lit w) m a r R E) as (b & M & Rb).
  exists b. split; [|exact Rb]. unfold words.
  apply Matches_AltOf_intro with (r := Word (lit w)); [|exact M].
  apply in_map_iff. exists w. split; [reflexivity | exact Hin].
Qed.

Lemma Matches_Star_Chr_intro (icase g : bool) (items : list cset_item) (m : str) :
  forall a r,
    rest a = m ++ r -> forallb (cset_mem icase items) m = true ->
    exists b, Matches icase (Star g (Chr items)) a b /\ rest b = r.
Proof.
  induction m as [|c m IH]; intros [pv s] r R F; cbn [rest] in R.
  - exists (MState pv s). split; [constructor | exact R].
  - cbn [forallb] in F. apply andb_true_iff in F. destruct F as [Fc F]. subst s.
    destruct (IH (MState (Some c) (m ++ r)) r eq_refl F) as (b & M & Rb).
    exists b. split; [|exact Rb].
    eapply M_StarS; [apply M_Chr; exact Fc | | exact M].
    unfold shorter. cbn [rest]. apply Nat.ltb_lt.
    rewrite !length_app. cbn [length]. lia.
Qed.

Lemma Matches_Plus_Chr_intro (icase g : bool) (items : list cset_item)
    (c : ascii) (m : str) (a : mstate) (r : str) :
  rest a = (c :: m) ++ r ->
  cset_mem icase items c = true -> forallb (cset_mem icase items) m = true ->
  exists b, Matches icase (Plus g (Chr items)) a b /\ rest b = r.
Proof.
  destruct a as [pv s]. cbn [rest]. intros -> Fc F.
  destruct (@Matches_Star_Chr_intro icase g items m (MState (Some c) (m ++ r)) r
              eq_refl F) as (b & M & Rb).
  exists b. split; [|exact Rb]. unfold Plus.
  eapply M_Seq; [apply M_Chr; exact Fc | exact M].
Qed.

Lemma Matches_spaces_intro (icase g : bool) (wsp : str) (a : mstate) (r : str) :
  rest a = wsp ++ r -> wsp <> [] -> forallb is_space wsp = true ->
  exists b, Matches icase (Plus g ws) a b /\ rest b = r.
Proof.
  intros R Hne F. destruct wsp as [|c m]; [congruence|].
  cbn [forallb] in F. apply andb_true_iff in F. destruct F as [Fc F].
  apply Matches_Plus_Chr_intro with (c := c) (m := m); [exact R | |].
  - cbn [cset_mem existsb item_mem]. rewrite Fc. reflexivity.
  - rewrite <- F. apply forallb_same. intros x.
    cbn [cset_mem existsb item_mem]. apply orb_false_r.
Qed.

Ltac by_cases_on_char c :=
  destruct c as [[] [] [] [] [] [] [] []];
  vm_compute; try reflexivity; intros; congruence.

Lemma letter_not_space (c : ascii) : is_letter c = true -> is_space c = false.
Proof. by_cases_on_char c. Qed.

Lemma letter_not_terminator (c : ascii) :
  is_letter c = true -> is_terminator c = false.
Proof. by_cases_on_char c. Qed.

Lemma letter_not_newline (c : ascii) :
  is_letter c = true -> (code c =? 10) = false.
Proof. by_cases_on_char c. Qed.

Lemma capital_is_letter (c : ascii) :
  between 65 90 (code c) = true -> is_letter c = true.
Proof. by_cases_on_char c. Qed.

Lemma terminator_icase (c : ascii) :
  cset_mem true [CLit ","; CLit "."; CLit "!"; CLit "?"] c = is_terminator c.
Proof. by_cases_on_char c. Qed.

Lemma class_icase (c : ascii) :
  cset_mem true [upper_AZ; lower_az; CSpace] c = is_letter c || is_space c.
Proof. by_cases_on_char c. Qed.

Lemma terminator_not_class (c : ascii) :
  is_terminator c = true -> is_letter c || is_space c = false.
Proof. by_cases_on_char c. Qed.

Lemma is_word_lower (c : ascii) : is_word (lower_char c) = is_word c.
Proof. by_cases_on_char c. Qed.

Lemma nonspace_lower (s : str) : forallb nonspace (lower s) = forallb nonspace s.
Proof.
  induction s as [|c s IH]; [reflexivity|].
  change (lower (c :: s)) with (lower_char c :: lower s).
  cbn [forallb]. rewrite IH. unfold nonspace at 1 3. rewrite is_space_lower.
  reflexivity.
Qed.

(** A cue word, in whatever case, has no whitespace and begins with a
    word character. *)
Lemma cue_chars (cue : str) :
  In (lower cue) cue_words ->
  forallb nonspace cue = true /\ exists c tl, cue = c :: tl /\ is_word c = true.
Proof.
  intros Hin. split.
  - rewrite <- nonspace_lower.
    destruct Hin as [<- | [<- | [<- | [<- | [<- | [<- | [<- | []]]]]]]]; reflexivity.
  - destruct cue as [|c tl].
    + exfalso.
      destruct Hin as [E | [E | [E | [E | [E | [E | [E | []]]]]]]]; discriminate.
    + exists c, tl. split; [reflexivity|]. rewrite <- is_word_lower.
      change (lower (c :: tl)) with (lower_char c :: lower tl) in Hin.
      destruct Hin as [E | [E | [E | [E | [E | [E | [E | []]]]]]]];
        injection E as <- _; reflexivity.
Qed.

Lemma firstn_exact (a b : str) : firstn (length a) (a ++ b) = a.
Proof.
  rewrite firstn_app, Nat.sub_diag, firstn_all. cbn [firstn]. apply app_nil_r.
Qed.

Lemma skipn_exact (a b : str) : skipn (length a) (a ++ b) = b.
Proof.
  rewrite skipn_app, Nat.sub_diag, skipn_all. reflexivity.
Qed.

Lemma cue_then_space_intro (cues : list str) (cue : str) (c : ascii) (r : str) :
  In (lower cue) cues -> is_space c = true ->
  cue_then_space cues (cue ++ c :: r) = true.
Proof.
  intros Hin Sp. unfold cue_then_space. apply existsb_exists.
  exists (lower cue). split; [exact Hin|].
  rewrite lower_length, firstn_exact, skipn_exact, Sp, andb_true_r.
  apply str_eqb_eq. reflexivity.
Qed.

Lemma space_not_word (c : ascii) : is_space c = true -> is_word c = false.
Proof. by_cases_on_char c. Qed.

(** After a run of whitespace the matcher stands behind a character that
    is not a word character. *)
Lemma Later_prev_space (a b : mstate) (m : str) :
  Later a m b -> m <> [] -> forallb is_space m = true ->
  opt_word (prev b) = false.
Proof.
  intros [_ P] Hne F. rewrite P. destruct (rev m) as [|c r] eqn:E.
  - apply (f_equal (@rev ascii)) in E. rewrite rev_involutive in E.
    cbn [rev] in E. congruence.
  - cbn [opt_word]. apply space_not_word.
    rewrite forallb_forall in F. apply F.
    apply (proj2 (in_rev m c)). rewrite E. left. reflexivity.
Qed.

(** [\b] before a word character: the character before is none. *)
Lemma boundary_before_word (st : mstate) (c : ascii) (tl : str) :
  at_boundary st = true -> rest st = c :: tl -> is_word c = true ->
  opt_word (prev st) = false.
Proof.
  unfold at_boundary. intros B R W. rewrite R in B.
  cbn [hd_error opt_word] in B. rewrite W in B.
  destruct (opt_word (prev st)); [discriminate | reflexivity].
Qed.

Lemma boundary_before_cue (st b : mstate) (cue : str) :
  at_boundary st = true -> Later st cue b -> In (lower cue) cue_words ->
  opt_word (prev st) = false.
Proof.
  intros B [R _] Hin. destruct (cue_chars _ Hin) as [_ (c & tl & -> & W)].
  exact (@boundary_before_word st c (tl ++ rest b) B R W).
Qed.

(** An optional word with its whitespace leaves the matcher behind a
    character that is not a word character, if it stood behind one. *)
Lemma optional_word_keeps_gap (w : str) (a b : mstate) :
  Matches true (Opt (Seq (Word w) (Plus true ws))) a b ->
  opt_word (prev a) = false ->
  (exists m, Later a m b) /\ opt_word (prev b) = false.
Proof.
  intros M W. apply Matches_Opt_inv in M. destruct M as [M | <-].
  - apply Matches_Seq_inv in M. destruct M as (c & M1 & M2).
    apply Matches_Later in M1. destruct M1 as [m1 L1].
    apply Matches_spaces in M2. destruct M2 as (m2 & L2 & Hne & Hsp).
    split; [exists (m1 ++ m2); eapply Later_trans; eassumption|].
    eapply Later_prev_space; eassumption.
  - split; [exists []; apply Later_refl | exact W].
Qed.

Lemma cue_starts_In (cues : list str) (m : str) :
  forall pv i s a,
    Later (MState pv s) m a ->
    opt_word (prev a) = false ->
    cue_then_space cues (rest a) = true ->
    In (i + length m) (cue_starts cues pv i s).
Proof.
  induction m as [|c m IH]; intros pv i s a L W H.
  - destruct L as [R P]. cbn [rest prev app rev] in R, P.
    rewrite P in W. rewrite <- R in H. cbn [length]. rewrite Nat.add_0_r.
    destruct s; cbn [cue_starts]; rewrite W, H; left; reflexivity.
  - assert (R := proj1 L). cbn [rest app] in R.
    destruct s as [|c' tl]; [discriminate|]. injection R as <- R.
    cbn [cue_starts length]. apply in_or_app. right.
    rewrite <- Nat.add_succ_comm. apply IH with (a := a); [|exact W | exact H].
    exact (Later_uncons L).
Qed.

Lemma city_letters (city : str) :
  city_name city = true ->
  forallb is_letter city = true /\
  exists k k1 m, city = k :: k1 :: m /\ between 65 90 (code k) = true.
Proof.
  destruct city as [|k tl]; [discriminate|]. cbn [city_name].
  intros H. apply andb_true_iff in H. destruct H as [H Hl].
  apply andb_true_iff in H. destruct H as [Hk Hlen]. split.
  - cbn [forallb]. rewrite (capital_is_letter _ Hk), Hl. reflexivity.
  - destruct tl as [|k1 m]; [discriminate|]. exists k, k1, m.
    split; [reflexivity | exact Hk].
Qed.

(** A phrase that starts where a city name starts, the name being
    followed by the end or by a terminator, is that name. *)
Lemma phrase_is_city (s1 s2 s3 : mstate) (city tail : str) :
  rest s1 = city ++ tail ->
  city_name city = true ->
  (tail = [] \/ exists t tl, tail = t :: tl /\ is_terminator t = true) ->
  Matches true phrase s1 s2 ->
  Matches true terminator s2 s3 ->
  span s1 s2 = city.
Proof.
  intros R Hcity Htail M2 M3.
  destruct (city_letters _ Hcity) as [Fcity _].
  unfold phrase in M2. apply Matches_Seq_inv in M2. destruct M2 as (a & Ma & Mb).
  apply Matches_Chr_inv in Ma. destruct Ma as (c0 & L1 & Hc0).
  apply Matches_Plus_Chr in Mb. destruct Mb as (c1 & m & L2 & Hc1 & F).
  pose proof (Later_trans L1 L2) as L. rewrite (Later_span L).
  assert (Fg : forallb (fun x => is_letter x || is_space x) ([c0] ++ c1 :: m) = true).
  { cbn [app forallb]. rewrite upper_AZ_icase in Hc0. rewrite Hc0.
    rewrite class_icase in Hc1. rewrite Hc1. cbn [orb andb].
    rewrite <- F. apply forallb_same. intros x. symmetry. apply class_icase. }
  assert (Hstop : forall x tl, rest s2 = x :: tl -> is_letter x = false).
  { intros x tl Ex. unfold terminator in M3. apply Matches_Alt_inv in M3.
    destruct M3 as [M3 | M3].
    - apply Matches_Chr_inv in M3. destruct M3 as (t & [Rt _] & Ht).
      rewrite Ex in Rt. injection Rt as <- _. rewrite terminator_icase in Ht.
      destruct (is_letter x) eqn:El; [|reflexivity].
      rewrite (letter_not_terminator _ El) in Ht. discriminate.
    - apply Matches_EndA_inv in M3. destruct M3 as [_ Hend].
      unfold at_end in Hend. rewrite Ex in Hend. destruct tl; [|discriminate].
      destruct (is_letter x) eqn:El; [|reflexivity].
      rewrite (letter_not_newline _ El) in Hend. discriminate. }
  destruct L as [Rg _]. rewrite R in Rg. symmetry in Rg.
  apply app_eq_app in Rg. destruct Rg as (l & [[Eg Et] | [Ec Er]]);
    destruct l as [|x l].
  - rewrite app_nil_r in Eg. exact Eg.
  - exfalso. destruct Htail as [-> | (t & tl & -> & Ht)]; [discriminate|].
    injection Et as <- _. rewrite Eg, forallb_app in Fg.
    apply andb_true_iff in Fg. destruct Fg as [_ Fg]. cbn [forallb] in Fg.
    rewrite (terminator_not_class _ Ht) in Fg. discriminate.
  - rewrite app_nil_r in Ec. symmetry. exact Ec.
  - exfalso. rewrite Ec, forallb_app in Fcity.
    apply andb_true_iff in Fcity. destruct Fcity as [_ Fx]. cbn [forallb] in Fx.
    rewrite (Hstop x (l ++ tail) Er) in Fx. discriminate.
Qed.

Lemma spaces_head (x : ascii) (tl r w : str) :
  w <> [] -> forallb is_space w = true -> w ++ r = x :: tl -> nonspace x = false.
Proof.
  intros Hne F E. destruct w as [|y w]; [congruence|].
  injection E as <- _. cbn [forallb] in F. apply andb_true_iff in F.
  unfold nonspace. rewrite (proj1 F). reflexivity.
Qed.

(** After a terminator, or at the end, no letter follows. *)
Lemma terminator_stops (s2 s3 : mstate) (x : ascii) (tl : str) :
  Matches true terminator s2 s3 -> rest s2 = x :: tl -> is_letter x = false.
Proof.
  intros M3 Ex. unfold terminator in M3. apply Matches_Alt_inv in M3.
  destruct M3 as [M3 | M3].
  - apply Matches_Chr_inv in M3. destruct M3 as (t & [Rt _] & Ht).
    rewrite Ex in Rt. injection Rt as <- _. rewrite terminator_icase in Ht.
    destruct (is_letter x) eqn:El; [|reflexivity].
    rewrite (letter_not_terminator _ El) in Ht. discriminate.
  - apply Matches_EndA_inv in M3. destruct M3 as [_ Hend].
    unfold at_end in Hend. rewrite Ex in Hend. destruct tl; [|discriminate].
    destruct (is_letter x) eqn:El; [|reflexivity].
    rewrite (letter_not_newline _ El) in Hend. discriminate.
Qed.

Lemma terminator_matches (b : mstate) (tail : str) :
  rest b = tail ->
  (tail = [] \/ exists t tl, tail = t :: tl /\ is_terminator t = true) ->
  exists b4, Matches true terminator b b4.
Proof.
  unfold terminator. destruct b as [pv r]. cbn [rest]. intros ->.
  intros [-> | (t & tl & -> & Ht)].
  - exists (MState pv []). apply M_AltR, M_EndA. reflexivity.
  - exists (MState (Some t) tl). apply M_AltL, M_Chr.
    rewrite terminator_icase. exact Ht.
Qed.

(** A cue and whitespace found in the text behind a character that is not
    a word character begin at a cue start. *)
Lemma cue_needs_start (cues : list str) (text m0 mb cue' wsp' : str)
    (st a s1 : mstate) :
  Later (MState None text) m0 st ->
  Later st mb a ->
  Later a (cue' ++ wsp') s1 ->
  opt_word (prev a) = false ->
  In (lower cue') cues ->
  wsp' <> [] -> forallb is_space wsp' = true ->
  text = (m0 ++ mb) ++ cue' ++ wsp' ++ rest s1 /\
  In (length (m0 ++ mb)) (cue_starts cues None 0 text).
Proof.
  intros L0 Lb L1 W Hc' Hne' Hsp'.
  assert (La := Later_trans L0 Lb).
  assert (Ra : rest a = cue' ++ wsp' ++ rest s1).
  { rewrite (proj1 L1), <- app_assoc. reflexivity. }
  split.
  - assert (R0 := proj1 La). cbn [rest] in R0. rewrite R0, Ra. reflexivity.
  - change (length (m0 ++ mb)) with (0 + length (m0 ++ mb)).
    apply cue_starts_In with (a := a); [exact La | exact W|].
    rewrite Ra. destruct wsp' as [|w0 wtl]; [congruence|]. cbn [forallb] in Hsp'.
    apply andb_true_iff in Hsp'. cbn [app].
    apply cue_then_space_intro; [exact Hc' | apply Hsp'].
Qed.

(** In the first two patterns the preposition cue stands behind a
    character that is not a word character. *)
Lemma before_preposition_at (p : pattern) (st s1 : mstate) :
  In p [pattern1; pattern2] ->
  Matches true (p_before p) st s1 ->
  exists mb a cue wsp,
    Later st mb a /\ Later a (cue ++ wsp) s1 /\
    opt_word (prev a) = false /\
    In (lower cue) prepositions /\
    wsp <> [] /\ forallb is_space wsp = true.
Proof.
  intros [<- | [<- | []]]; unfold pattern1, pattern2; cbn [p_before Cat]; intros M.
  - apply Matches_Seq_inv in M. destruct M as (a0 & M0 & M).
    apply Matches_Seq_inv in M. destruct M as (a1 & M1 & M).
    apply Matches_Seq_inv in M. destruct M as (a2 & M2 & M).
    apply Matches_Seq_inv in M. destruct M as (a3 & M3 & M).
    apply Matches_Seq_inv in M. destruct M as (a4 & M4 & M).
    apply Matches_Seq_inv in M. destruct M as (a5 & M5 & M6).
    apply Matches_WordB_inv in M0. destruct M0 as [<- _].
    apply Matches_Later in M1. destruct M1 as [m1 L1].
    apply Matches_spaces in M2. destruct M2 as (m2 & L2 & Hne2 & Hsp2).
    destruct (@optional_word_keeps_gap _ _ _ M3 (Later_prev_space L2 Hne2 Hsp2))
      as [[m3 L3] W3].
    destruct (@optional_word_keeps_gap _ _ _ M4 W3) as [[m4 L4] W4].
    apply Matches_words in M5. destruct M5 as (w & cue & Hw & L5 & E5).
    apply Matches_spaces in M6. destruct M6 as (wsp & L6 & Hne & Hsp).
    exists (((m1 ++ m2) ++ m3) ++ m4), a4, cue, wsp.
    split; [exact (Later_trans (Later_trans (Later_trans L1 L2) L3) L4)|].
    split; [exact (Later_trans L5 L6)|]. split; [exact W4|].
    split; [|split; assumption].
    rewrite E5, (lower_prepositions Hw). exact Hw.
  - apply Matches_Seq_inv in M. destruct M as (a0 & M0 & M).
    apply Matches_Seq_inv in M. destruct M as (a5 & M5 & M6).
    apply Matches_WordB_inv in M0. destruct M0 as [<- B].
    apply Matches_words in M5. destruct M5 as (w & cue & Hw & L5 & E5).
    apply Matches_spaces in M6. destruct M6 as (wsp & L6 & Hne & Hsp).
    assert (Hc : In (lower cue) prepositions).
    { rewrite E5, (lower_prepositions Hw). exact Hw. }
    exists [], st, cue, wsp.
    split; [apply Later_refl|]. split; [exact (Later_trans L5 L6)|].
    split; [|split; [exact Hc | split; assumption]].
    apply (boundary_before_cue B L5). unfold cue_words.
    apply in_or_app. left. exact Hc.
Qed.

(** In the third pattern so does the travel verb, and so does [to]. *)
Lemma before_travel_verb_at (st s1 : mstate) :
  Matches true (p_before pattern3) st s1 ->
  exists mb a cue wsp,
    Later st mb a /\ Later a (cue ++ wsp) s1 /\
    opt_word (prev a) = false /\
    In (lower cue) cue_words /\
    wsp <> [] /\ forallb is_space wsp = true.
Proof.
  unfold pattern3; cbn [p_before Cat]; intros M.
  apply Matches_Seq_inv in M. destruct M as (a0 & M0 & M).
  apply Matches_Seq_inv in M. destruct M as (a1 & M1 & M).
  apply Matches_Seq_inv in M. destruct M as (a2 & M2 & M3).
  apply Matches_WordB_inv in M0. destruct M0 as [<- B].
  apply Matches_words in M1. destruct M1 as (w & cue & Hw & L1 & E1).
  apply Matches_spaces in M2. destruct M2 as (wsp & L2 & Hne & Hsp).
  apply Matches_Opt_inv in M3. destruct M3 as [M3 | <-].
  - apply Matches_Seq_inv in M3. destruct M3 as (a3 & M3 & M4).
    apply Matches_Word in M3. destruct M3 as (to & L3 & E3).
    apply Matches_spaces in M4. destruct M4 as (wsp2 & L4 & Hne2 & Hsp2).
    exists (cue ++ wsp), a2, to, wsp2.
    split; [exact (Later_trans L1 L2)|]. split; [exact (Later_trans L3 L4)|].
    split; [exact (Later_prev_space L2 Hne Hsp)|].
    split; [|split; assumption].
    rewrite E3. unfold cue_words. apply in_or_app. left.
    right. right. left. reflexivity.
  - assert (Hc : In (lower cue) cue_words).
    { rewrite E1, (lower_travel_verbs Hw). unfold cue_words.
      apply in_or_app. right. exact Hw. }
    exists [], st, cue, wsp.
    split; [apply Later_refl|]. split; [exact (Later_trans L1 L2)|].
    split; [exact (boundary_before_cue B L1 Hc)|].
    split; [exact Hc | split; assumption].
Qed.

Lemma before_cue_at (p : pattern) (st s1 : mstate) :
  In p patterns ->
  Matches true (p_before p) st s1 ->
  exists mb a cue wsp,
    Later st mb a /\ Later a (cue ++ wsp) s1 /\
    opt_word (prev a) = false /\
    In (lower cue) cue_words /\
    wsp <> [] /\ forallb is_space wsp = true.
Proof.
  intros Hp M.
  assert (Hcase : In p [pattern1; pattern2] \/ p = pattern3).
  { destruct Hp as [E | [E | [E | []]]];
      [left; left; exact E | left; right; left; exact E | right; symmetry; exact E]. }
  destruct Hcase as [H12 | ->]; [|apply before_travel_verb_at; exact M].
  destruct (before_preposition_at H12 M)
    as (mb & a & cue & wsp & Lb & L1 & W & Hc & H).
  exists mb, a, cue, wsp. split; [exact Lb|]. split; [exact L1|].
  split; [exact W|]. split; [|exact H].
  unfold cue_words. apply in_or_app. left. exact Hc.
Qed.

Section CueBeforeCity.

(** The text reads [pre cue wsp city tail]: one of the [cues], in any
    case and a word of its own, whitespace, a capitalized name, and then
    the end or a terminator; nowhere else does the text hold one of the
    [cues] followed by whitespace. *)
Variable cues : list str.
Hypothesis Hcues : incl cues cue_words.
Variables text pre cue wsp city tail : str.
Hypothesis Htext : text = pre ++ cue ++ wsp ++ city ++ tail.
Hypothesis Hcue : In (lower cue) cues.
Hypothesis Hwsp : wsp <> [].
Hypothesis Hspaces : forallb is_space wsp = true.
Hypothesis Hcity : city_name city = true.
Hypothesis Htail :
  tail = [] \/ exists t tl, tail = t :: tl /\ is_terminator t = true.
Hypothesis Honly : cue_starts cues None 0 text = [length pre].
Hypothesis Hword : opt_word (hd_error (rev pre)) = false.

Lemma city_head_not_space (x : ascii) (tl : str) :
  city ++ tail = x :: tl -> is_space x = false.
Proof.
  destruct (city_letters _ Hcity) as [_ (k & k1 & m & -> & Hk)].
  intros [= <- _]. apply letter_not_space, capital_is_letter, Hk.
Qed.

Lemma tail_head_not_letter (x : ascii) (tl : str) :
  tail = x :: tl -> is_letter x = false.
Proof.
  intros E. destruct Htail as [E0 | (t & tl' & E0 & Ht)]; rewrite E0 in E;
    [discriminate|].
  injection E as <- _. destruct (is_letter t) eqn:El; [|reflexivity].
  rewrite (letter_not_terminator _ El) in Ht. discriminate.
Qed.

(** A cue, whitespace and a letter found anywhere in the text are the cue
    and the whitespace before the city. *)
Lemma cue_is_the_cue (m0 mb cue' wsp' : str) (st a s1 : mstate) (c : ascii)
    (gtl : str) :
  Later (MState None text) m0 st ->
  Later st mb a ->
  Later a (cue' ++ wsp') s1 ->
  opt_word (prev a) = false ->
  In (lower cue') cues ->
  wsp' <> [] -> forallb is_space wsp' = true ->
  rest s1 = c :: gtl -> is_letter c = true ->
  rest s1 = city ++ tail.
Proof.
  intros L0 Lb L1 W Hc' Hne' Hsp' Rs Hl.
  destruct (@cue_needs_start cues text m0 mb cue' wsp' st a s1
              L0 Lb L1 W Hc' Hne' Hsp') as [Et Hpos].
  rewrite Honly in Hpos. destruct Hpos as [Hlen | []].
  assert (Epre : m0 ++ mb = pre).
  { apply app_same_length with (b := cue' ++ wsp' ++ rest s1)
                               (d := cue ++ wsp ++ city ++ tail);
      [rewrite <- Et; exact Htext | symmetry; exact Hlen]. }
  rewrite Epre, Htext in Et. apply app_inv_head in Et.
  destruct (cue_chars _ (Hcues _ Hcue)) as [Fc _].
  destruct (cue_chars _ (Hcues _ Hc')) as [Fc' _].
  destruct (@run_unique nonspace cue (wsp ++ city ++ tail) cue' (wsp' ++ rest s1))
    as [_ Ew]; try assumption.
  - intros x tl. apply spaces_head; assumption.
  - intros x tl. apply spaces_head; assumption.
  - destruct (@run_unique is_space wsp (city ++ tail) wsp' (rest s1))
      as [_ Er]; try assumption.
    + intros x tl. apply city_head_not_space.
    + intros x tl E. rewrite Rs in E. injection E as <- _.
      apply letter_not_space. exact Hl.
    + symmetry. exact Er.
Qed.

(** At the cue the text matches [\b], the cue and [\s+], up to the city. *)
Lemma cue_prefix_matches (l : list string) :
  map lit l = cues ->
  exists st0 b1 b2,
    Later (MState None text) pre st0 /\
    at_boundary st0 = true /\
    Matches true (words l) st0 b1 /\
    Matches true (Plus true ws) b1 b2 /\
    rest b2 = city ++ tail.
Proof.
  intros El.
  destruct (cue_chars _ (Hcues _ Hcue)) as [_ (c & ctl & Ecue & Hc)].
  set (st0 := MState (hd_error (rev pre)) (cue ++ wsp ++ city ++ tail)).
  assert (L0 : Later (MState None text) pre st0).
  { split; [exact Htext|]. cbn [prev]. destruct (rev pre); reflexivity. }
  assert (B : at_boundary st0 = true).
  { unfold at_boundary, st0. cbn [prev rest]. rewrite Hword, Ecue.
    cbn [app hd_error opt_word]. rewrite Hc. reflexivity. }
  assert (Hin := Hcue). rewrite <- El in Hin. apply in_map_iff in Hin.
  destruct Hin as (w & Ew & Hw).
  destruct (@Matches_words_intro l w cue st0 (wsp ++ city ++ tail) Hw eq_refl)
    as (b1 & M1 & R1).
  { rewrite Ew. symmetry. apply lower_idem. }
  destruct (@Matches_spaces_intro true true wsp b1 (city ++ tail) R1 Hwsp Hspaces)
    as (b2 & M2 & R2).
  exists st0, b1, b2. repeat (split; [assumption|]). exact R2.
Qed.

End CueBeforeCity.

Lemma prepositions_are_cues : incl prepositions cue_words.
Proof. intros w H. unfold cue_words. apply in_or_app. left. exact H. Qed.

Lemma travel_verbs_are_cues : incl travel_verbs cue_words.
Proof. intros w H. unfold cue_words. apply in_or_app. right. exact H. Qed.

Section CityAfterPreposition.

Variables text pre cue wsp city tail : str.
Hypothesis Htext : text = pre ++ cue ++ wsp ++ city ++ tail.
Hypothesis Hcue : In (lower cue) prepositions.
Hypothesis Hwsp : wsp <> [].
Hypothesis Hspaces : forallb is_space wsp = true.
Hypothesis Hcity : city_name city = true.
Hypothesis Htail :
  tail = [] \/ exists t tl, tail = t :: tl /\ is_terminator t = true.
Hypothesis Honly : cue_starts prepositions None 0 text = [length pre].
Hypothesis Hword : opt_word (hd_error (rev pre)) = false.

(** Whatever the first or the second pattern finds is the city. *)
Lemma preposition_pattern_finds_city (p : pattern) (g : str) :
  In p [pattern1; pattern2] ->
  re_search true p text = Some g -> g = city.
Proof.
  intros Hp E. unfold re_search in E. apply search_from_sound in E.
  destruct E as (m0 & st & L0 & E). apply match_at_sound in E.
  destruct E as (s1 & s2 & s3 & M1 & M2 & M3 & ->).
  destruct (before_preposition_at Hp M1)
    as (mb & a & cue' & wsp' & Lb & L1 & W & Hc' & Hne' & Hsp').
  assert (Hg : p_group p = phrase /\ p_after p = terminator).
  { destruct Hp as [<- | [<- | []]]; split; reflexivity. }
  destruct Hg as [Eg Ea]. rewrite Eg in M2. rewrite Ea in M3.
  assert (M2' := M2). unfold phrase in M2'. apply Matches_Chr_first in M2'.
  destruct M2' as (c & gtl & [Rs _] & Hc). rewrite upper_AZ_icase in Hc.
  apply (@phrase_is_city s1 s2 s3 city tail); try assumption.
  eapply (@cue_is_the_cue prepositions prepositions_are_cues text pre cue wsp city tail);
    eassumption.
Qed.

(** The second pattern does find something. *)
Lemma preposition_pattern_matches : re_search true pattern2 text <> None.
Proof.
  destruct (@cue_prefix_matches prepositions prepositions_are_cues text pre cue wsp
              city tail Htext Hcue Hwsp Hspaces Hword ["in"; "at"; "to"; "near"] eq_refl)
    as (st0 & b1 & b2 & L0 & B & M1 & M2 & R2).
  destruct (city_letters _ Hcity) as [Fcity (k & k1 & m & Ecity & Hk)].
  destruct b2 as [pv2 r2]. cbn [rest] in R2. subst r2.
  assert (Fm : forallb (cset_mem true [upper_AZ; lower_az; CSpace]) m = true).
  { rewrite Ecity in Fcity. cbn [forallb] in Fcity.
    apply andb_true_iff in Fcity. destruct Fcity as [_ Fcity].
    apply andb_true_iff in Fcity. destruct Fcity as [_ Fm].
    apply forallb_forall. intros x Hx. rewrite class_icase.
    rewrite (proj1 (forallb_forall _ _) Fm x Hx). reflexivity. }
  assert (Hk1 : cset_mem true [upper_AZ; lower_az; CSpace] k1 = true).
  { rewrite Ecity in Fcity. cbn [forallb] in Fcity.
    apply andb_true_iff in Fcity. destruct Fcity as [_ Fcity].
    apply andb_true_iff in Fcity. destruct Fcity as [F1 _].
    rewrite class_icase, F1. reflexivity. }
  destruct (@Matches_Plus_Chr_intro true false [upper_AZ; lower_az; CSpace] k1 m
              (MState (Some k) ((k1 :: m) ++ tail)) tail eq_refl Hk1 Fm)
    as (b3 & M3 & R3).
  assert (Mg : Matches true phrase (MState pv2 (city ++ tail)) b3).
  { unfold phrase. rewrite Ecity. eapply M_Seq; [|exact M3].
    apply M_Chr. rewrite upper_AZ_icase. apply capital_is_letter. exact Hk. }
  destruct (@terminator_matches b3 tail R3 Htail) as [b4 Mt].
  unfold re_search. apply (@search_from_complete true pattern2 pre None text st0 L0).
  apply (@match_at_complete true pattern2 st0 (MState pv2 (city ++ tail)) b3 b4);
    [|exact Mg | exact Mt].
  unfold pattern2. cbn [p_before Cat].
  eapply M_Seq; [apply M_WordB; exact B|]. eapply M_Seq; eassumption.
Qed.

End CityAfterPreposition.

(** *** After a travel verb *)

Lemma letters_icase (c : ascii) :
  cset_mem true [upper_AZ; lower_az] c = is_letter c.
Proof. by_cases_on_char c. Qed.

Lemma space_not_letter (c : ascii) : is_space c = true -> is_letter c = false.
Proof. by_cases_on_char c. Qed.

Lemma terminator_not_space (c : ascii) :
  is_terminator c = true -> is_space c = false.
Proof. by_cases_on_char c. Qed.

(** [[A-Z][A-Za-z]+], case ignored, reads letters only. *)
Lemma capword_letters (s1 a : mstate) :
  Matches true capword s1 a ->
  exists c0 g, Later s1 (c0 :: g) a /\
               is_letter c0 = true /\ forallb is_letter (c0 :: g) = true.
Proof.
  unfold capword. intros M. apply Matches_Seq_inv in M. destruct M as (x & Ma & Mb).
  apply Matches_Chr_inv in Ma. destruct Ma as (c0 & L1 & Hc0).
  apply Matches_Plus_Chr in Mb. destruct Mb as (c1 & m & L2 & Hc1 & F).
  rewrite upper_AZ_icase in Hc0. rewrite letters_icase in Hc1.
  exists c0, (c1 :: m). split; [exact (Later_trans L1 L2)|]. split; [exact Hc0|].
  cbn [forallb]. rewrite Hc0, Hc1. cbn [andb].
  rewrite <- F. apply forallb_same. intros y. symmetry. apply letters_icase.
Qed.

Lemma capword_intro (k k1 : ascii) (m : str) (pv : option ascii) (r : str) :
  is_letter k = true -> forallb is_letter (k1 :: m) = true ->
  exists b, Matches true capword (MState pv ((k :: k1 :: m) ++ r)) b /\ rest b = r.
Proof.
  intros Hk F. cbn [forallb] in F. apply andb_true_iff in F. destruct F as [Hk1 Fm].
  destruct (@Matches_Plus_Chr_intro true true [upper_AZ; lower_az] k1 m
              (MState (Some k) ((k1 :: m) ++ r)) r eq_refl) as (b & M & R).
  - rewrite letters_icase. exact Hk1.
  - apply forallb_forall. intros x Hx. rewrite letters_icase.
    exact (proj1 (forallb_forall _ _) Fm x Hx).
  - exists b. split; [|exact R]. unfold capword.
    eapply M_Seq; [|exact M]. apply M_Chr. rewrite upper_AZ_icase. exact Hk.
Qed.

Section CityAfterTravelVerb.

(** The text reads [pre verb wsp city tail], with one of visit/go/travel
    for the verb, and holds no preposition cue followed by whitespace. *)
Variables text pre verb wsp city tail : str.
Hypothesis Htext : text = pre ++ verb ++ wsp ++ city ++ tail.
Hypothesis Hverb : In (lower verb) travel_verbs.
Hypothesis Hwsp : wsp <> [].
Hypothesis Hspaces : forallb is_space wsp = true.
Hypothesis Hcity : city_name city = true.
Hypothesis Htail :
  tail = [] \/ exists t tl, tail = t :: tl /\ is_terminator t = true.
Hypothesis Honly : cue_starts travel_verbs None 0 text = [length pre].
Hypothesis Hnoprep : cue_starts prepositions None 0 text = [].
Hypothesis Hword : opt_word (hd_error (rev pre)) = false.

(** The first two patterns find nothing. *)
Lemma no_preposition_no_match (p : pattern) :
  In p [pattern1; pattern2] -> re_search true p text = None.
Proof.
  intros Hp. destruct (re_search true p text) as [g|] eqn:E; [|reflexivity].
  exfalso. unfold re_search in E. apply search_from_sound in E.
  destruct E as (m0 & st & L0 & E). apply match_at_sound in E.
  destruct E as (s1 & s2 & s3 & M1 & _ & _ & _).
  destruct (before_preposition_at Hp M1)
    as (mb & a & cue' & wsp' & Lb & L1 & W & Hc' & Hne' & Hsp').
  destruct (@cue_needs_start prepositions text m0 mb cue' wsp' st a s1
              L0 Lb L1 W Hc' Hne' Hsp') as [_ Hpos].
  rewrite Hnoprep in Hpos. destruct Hpos.
Qed.

(** Whatever the third pattern finds is the city. *)
Lemma travel_pattern_finds_city (g : str) :
  re_search true pattern3 text = Some g -> g = city.
Proof.
  intros E. unfold re_search in E. apply search_from_sound in E.
  destruct E as (m0 & st & L0 & E). apply match_at_sound in E.
  destruct E as (s1 & s2 & s3 & M1 & M2 & M3 & ->).
  unfold pattern3 in M1, M2, M3. cbn [p_before p_group p_after Cat] in M1, M2, M3.
  apply Matches_Seq_inv in M1. destruct M1 as (a0 & Mw & M1).
  apply Matches_Seq_inv in M1. destruct M1 as (a1 & Mv & M1).
  apply Matches_Seq_inv in M1. destruct M1 as (a2 & Ms & Mo).
  apply Matches_WordB_inv in Mw. destruct Mw as [<- Bw].
  apply Matches_words in Mv. destruct Mv as (w & verb' & Hw & L1 & E1).
  apply Matches_spaces in Ms. destruct Ms as (wsp1 & L2 & Hne1 & Hsp1).
  apply Matches_Seq_inv in M2. destruct M2 as (a & Mc & Mopt).
  apply capword_letters in Mc. destruct Mc as (c0 & gtl & Lg & Hc0 & Fg).
  assert (Hv' : In (lower verb') travel_verbs).
  { rewrite E1, (lower_travel_verbs Hw). exact Hw. }
  apply Matches_Opt_inv in Mo. destruct Mo as [Mo | Eo]; [|subst a2].
  { exfalso. apply Matches_Seq_inv in Mo. destruct Mo as (a3 & Mt & Ms2).
    apply Matches_Word in Mt. destruct Mt as (to & L3 & E3).
    apply Matches_spaces in Ms2. destruct Ms2 as (wsp2 & L4 & Hne2 & Hsp2).
    assert (Hto : In (lower to) prepositions).
    { rewrite E3. right. right. left. reflexivity. }
    destruct (@cue_needs_start prepositions text m0 (verb' ++ wsp1) to wsp2
                st a2 s1 L0 (Later_trans L1 L2) (Later_trans L3 L4)
                (Later_prev_space L2 Hne1 Hsp1) Hto Hne2 Hsp2) as [_ Hpos].
    rewrite Hnoprep in Hpos. destruct Hpos. }
  assert (Rs : rest s1 = city ++ tail).
  { apply (@cue_is_the_cue travel_verbs travel_verbs_are_cues text pre verb wsp
             city tail Htext Hverb Hwsp Hspaces Hcity Honly
             m0 [] verb' wsp1 st st s1 c0 (gtl ++ rest a)); try assumption.
    - apply Later_refl.
    - exact (Later_trans L1 L2).
    - apply (boundary_before_cue Bw L1). apply travel_verbs_are_cues. exact Hv'.
    - exact (proj1 Lg). }
  destruct (city_letters _ Hcity) as [Fcity _].
  assert (Ecut : (c0 :: gtl) ++ rest a = city ++ tail).
  { rewrite <- Rs. symmetry. exact (proj1 Lg). }
  assert (Hcut : forall x tl, rest a = x :: tl -> is_letter x = false ->
                 c0 :: gtl = city /\ rest a = tail).
  { intros x tl Ex Hx.
    assert (Hra : forall y tl', rest a = y :: tl' -> is_letter y = false).
    { intros y tl' Ey. rewrite Ex in Ey. injection Ey as <- _. exact Hx. }
    exact (@run_unique is_letter (c0 :: gtl) (rest a) city tail Fg Fcity Hra
             (@tail_head_not_letter tail Htail) Ecut). }
  apply Matches_Opt_inv in Mopt. destruct Mopt as [Mopt | <-].
  - exfalso. apply Matches_Seq_inv in Mopt. destruct Mopt as (a4 & Ms3 & _).
    apply Matches_spaces in Ms3. destruct Ms3 as (wsp3 & [R3 _] & Hne3 & Hsp3).
    destruct wsp3 as [|x wtl]; [congruence|]. cbn [forallb] in Hsp3.
    apply andb_true_iff in Hsp3. destruct Hsp3 as [Hx _].
    destruct (Hcut x (wtl ++ rest a4) R3 (space_not_letter _ Hx)) as [_ Et].
    rewrite R3 in Et. destruct Htail as [E0 | (t & tl' & E0 & Ht)];
      rewrite E0 in Et; [discriminate|].
    injection Et as -> _. rewrite (terminator_not_space _ Ht) in Hx. discriminate.
  - rewrite (Later_span Lg).
    destruct (rest a) as [|x tl] eqn:Ra.
    + assert (Hnil : forall y tl', @nil ascii = y :: tl' -> is_letter y = false)
        by (intros y tl' Ey; discriminate).
      exact (proj1 (@run_unique is_letter (c0 :: gtl) [] city tail Fg Fcity Hnil
                      (@tail_head_not_letter tail Htail) Ecut)).
    + apply (Hcut x tl eq_refl). apply (@terminator_stops a s3 x tl M3 Ra).
Qed.

(** The third pattern does find something. *)
Lemma travel_pattern_matches : re_search true pattern3 text <> None.
Proof.
  destruct (@cue_prefix_matches travel_verbs travel_verbs_are_cues text pre verb wsp
              city tail Htext Hverb Hwsp Hspaces Hword ["visit"; "go"; "travel"] eq_refl)
    as (st0 & b1 & b2 & L0 & B & M1 & M2 & R2).
  destruct (city_letters _ Hcity) as [Fcity (k & k1 & m & Ecity & Hk)].
  destruct b2 as [pv2 r2]. cbn [rest] in R2. subst r2.
  rewrite Ecity in Fcity. cbn [forallb] in Fcity.
  apply andb_true_iff in Fcity. destruct Fcity as [Fk Fcity].
  destruct (@capword_intro k k1 m pv2 tail Fk Fcity) as (b3 & M3 & R3).
  destruct (@terminator_matches b3 tail R3 Htail) as [b4 Mt].
  unfold re_search. apply (@search_from_complete true pattern3 pre None text st0 L0).
  apply (@match_at_complete true pattern3 st0 (MState pv2 (city ++ tail)) b3 b4);
    unfold pattern3; cbn [p_before p_group p_after Cat].
  - eapply M_Seq; [apply M_WordB; exact B|]. eapply M_Seq; [exact M1|].
    eapply M_Seq; [exact M2|]. apply M_AltR, M_Eps.
  - rewrite Ecity. eapply M_Seq; [exact M3|]. apply M_AltR, M_Eps.
  - exact Mt.
Qed.

End CityAfterTravelVerb.

Lemma token_strip (w : str) : is_token w -> strip w = w.
Proof.
  intros [Hne F]. unfold strip, rstrip.
  assert (Hl : forall s, s <> [] -> forallb nonspace s = true -> lstrip s = s).
  { intros [|c s] H Fs; [congruence|]. cbn [forallb] in Fs.
    apply andb_true_iff in Fs. destruct Fs as [Fc _].
    unfold nonspace in Fc. apply negb_true_iff in Fc.
    cbn [lstrip]. rewrite Fc. reflexivity. }
  rewrite (Hl w Hne F), Hl, rev_involutive; [reflexivity | |].
  - intros E. apply Hne. rewrite <- (rev_involutive w), E. reflexivity.
  - apply forallb_forall. intros x Hx. apply in_rev in Hx.
    exact (proj1 (forallb_forall _ _) F x Hx).
Qed.

Lemma city_is_token (city : str) : city_name city = true -> is_token city.
Proof.
  intros H. destruct (city_letters _ H) as [F (k & k1 & m & E & _)]. split.
  - rewrite E. discriminate.
  - apply forallb_forall. intros x Hx. unfold nonspace.
    rewrite (letter_not_space _ (proj1 (forallb_forall _ _) F x Hx)). reflexivity.
Qed.

Lemma clean_candidate_city (city : str) :
  city_name city = true -> ~ In (lower city) filler_words ->
  clean_candidate city = city.
Proof.
  intros Hcity Hfill. pose proof (@city_is_token city Hcity) as Tok.
  unfold clean_candidate. rewrite (@token_strip city Tok).
  replace (split city) with [city].
  - cbn [filter]. replace (str_in (lower city) filler_words) with false.
    + cbn [negb join]. apply token_strip. exact Tok.
    + symmetry. apply not_true_is_false. intros E. apply Hfill, str_in_In, E.
  - symmetry. apply (@split_join [city]). constructor; [exact Tok | constructor].
Qed.

Lemma city_length (city : str) : city_name city = true -> 2 < length city.
Proof.
  destruct city as [|k tl]; [discriminate|]. cbn [city_name]. intros H.
  apply andb_true_iff in H. destruct H as [H _].
  apply andb_true_iff in H. destruct H as [_ H]. apply Nat.leb_le in H.
  cbn [length]. lia.
Qed.

(** The fallback on a text that names a city after its only preposition
    cue. *)
Lemma fallback_city_after_preposition (query pre cue wsp city tail : str) :
  strip query = pre ++ cue ++ wsp ++ city ++ tail ->
  In (lower cue) prepositions ->
  wsp <> [] -> forallb is_space wsp = true ->
  city_name city = true ->
  ~ In (lower city) filler_words ->
  (tail = [] \/ exists t tl, tail = t :: tl /\ is_terminator t = true) ->
  cue_starts prepositions None 0 (strip query) = [length pre] ->
  opt_word (hd_error (rev pre)) = false ->
  extract_location_fallback query = Some (lower city).
Proof.
  intros Htext Hcue Hwsp Hsp Hcity Hfill Htail Honly Hword.
  apply fallback_regex_tier.
  assert (Hlen : (2 <? length (clean_candidate city)) = true).
  { rewrite (@clean_candidate_city city Hcity Hfill). apply Nat.ltb_lt.
    apply city_length. exact Hcity. }
  assert (Hacc : truthy (Some (clean_candidate city))
                 && (2 <? length (clean_candidate city)) = true).
  { rewrite Hlen, andb_true_r. apply truthy_Some. intros E.
    rewrite E in Hlen. discriminate. }
  assert (H2 : re_search true pattern2 (strip query) = Some city).
  { destruct (re_search true pattern2 (strip query)) as [g|] eqn:E.
    - f_equal.
      eapply (@preposition_pattern_finds_city (strip query) pre cue wsp city tail)
        with (p := pattern2); try eassumption.
      right; left; reflexivity.
    - exfalso.
      eapply (@preposition_pattern_matches (strip query) pre cue wsp city tail);
        eassumption. }
  unfold patterns. cbn [try_patterns].
  destruct (re_search true pattern1 (strip query)) as [g|] eqn:E1.
  - assert (g = city) as ->.
    { eapply (@preposition_pattern_finds_city (strip query) pre cue wsp city tail)
        with (p := pattern1); try eassumption.
      left; reflexivity. }
    rewrite Hacc, (@clean_candidate_city city Hcity Hfill). reflexivity.
  - rewrite H2, Hacc, (@clean_candidate_city city Hcity Hfill). reflexivity.
Qed.

(** The fallback on a text that names a city after its only travel verb
    and holds no preposition cue. *)
Lemma fallback_city_after_travel_verb (query pre verb wsp city tail : str) :
  strip query = pre ++ verb ++ wsp ++ city ++ tail ->
  In (lower verb) travel_verbs ->
  wsp <> [] -> forallb is_space wsp = true ->
  city_name city = true ->
  ~ In (lower city) filler_words ->
  (tail = [] \/ exists t tl, tail = t :: tl /\ is_terminator t = true) ->
  cue_starts travel_verbs None 0 (strip query) = [length pre] ->
  cue_starts prepositions None 0 (strip query) = [] ->
  opt_word (hd_error (rev pre)) = false ->
  extract_location_fallback query = Some (lower city).
Proof.
  intros Htext Hverb Hwsp Hsp Hcity Hfill Htail Honly Hnoprep Hword.
  apply fallback_regex_tier.
  assert (Hlen : (2 <? length (clean_candidate city)) = true).
  { rewrite (@clean_candidate_city city Hcity Hfill). apply Nat.ltb_lt.
    apply city_length. exact Hcity. }
  assert (Hacc : truthy (Some (clean_candidate city))
                 && (2 <? length (clean_candidate city)) = true).
  { rewrite Hlen, andb_true_r. apply truthy_Some. intros E.
    rewrite E in Hlen. discriminate. }
  assert (H3 : re_search true pattern3 (strip query) = Some city).
  { destruct (re_search true pattern3 (strip query)) as [g|] eqn:E.
    - f_equal.
      eapply (@travel_pattern_finds_city (strip query) pre verb wsp city tail);
        eassumption.
    - exfalso.
      eapply (@travel_pattern_matches (strip query) pre verb wsp city tail);
        eassumption. }
  unfold patterns. cbn [try_patterns].
  rewrite (@no_preposition_no_match (strip query) Hnoprep pattern1 (or_introl eq_refl)).
  rewrite (@no_preposition_no_match (strip query) Hnoprep pattern2
             (or_intror (or_introl eq_refl))).
  rewrite H3, Hacc, (@clean_candidate_city city Hcity Hfill). reflexivity.
Qed.


Lemma single_entity_extracted (model : ner_model) (query city : str) :
  location_entities (model query) = [city] ->
  extract_location (Some model) query = Some (lower city).
Proof.
  intros E. unfold extract_location. cbn [extract_location_nlp]. rewrite E.
  cbn [first_after_keyword last].
  destruct (keyword_before (lower query) city); reflexivity.
Qed.


Lemma not_in_check (x : str) (l : list str) : str_in x l = false -> ~ In x l.
Proof. intros E H. apply str_in_In in H. congruence. Qed.


(** * Further properties of the orchestrator *)

(** ** Dispatch *)

Lemma extract_location_lower (nlp : option ner_model) (query loc : str) :
  extract_location nlp query = Some loc -> lower loc = loc.
Proof.
  unfold extract_location. destruct nlp as [model|]; cbn [extract_location_nlp].
  - destruct (location_entities (model query)) as [|l0 ls] eqn:E.
    + intros H. apply fallback_answer_wellformed in H. apply H.
    + destruct (first_after_keyword (lower query) (l0 :: ls)) as [r|] eqn:F.
      * intros [= <-]. apply first_after_keyword_shape in F.
        destruct F as (l & _ & ->). apply lower_idem.
      * intros [= <-]. apply lower_idem.
  - intros H. apply fallback_answer_wellformed in H. apply H.
Qed.

(** X3. Whatever path answers (the model, the patterns or the scan for
    capitalized words) and whatever the model tags, an extracted location
    equals its own lowercasing. *)
Theorem extracted_location_is_lowercase (nlp : option ner_model) (query loc : str) :
  extract_location nlp query = Some loc -> lower loc = loc.
Proof. apply extract_location_lower. Qed.

Lemma extracted_location_is_lowercase_witness :
  lower (lit "rome") = lit "rome".
Proof.
  apply (@extracted_location_is_lowercase (Some two_city_model)
           (lit "From Paris on Monday I fly to Rome") (lit "rome")).
  vm_compute. reflexivity.
Defined.

Lemma handle_empty_location (nlp : option ner_model)
    (get_weather_info get_places_info : str -> str) (query : str) :
  truthy (extract_location nlp query) = false ->
  handle_user_query nlp get_weather_info get_places_info query
  = (NO_LOCATION_MESSAGE, []).
Proof.
  intros E. unfold handle_user_query. rewrite E. reflexivity.
Qed.

(** X1. A query without a weather keyword, for which a location is
    extracted, calls the places agent only and returns exactly its answer,
    whether the query holds a places keyword or none at all. *)
Theorem places_only_query (nlp : option ner_model)
    (get_weather_info get_places_info : str -> str) (query loc : str) :
  entities_nonempty nlp ->
  ~ has_keyword weather_keywords query ->
  extract_location nlp query = Some loc ->
  handle_user_query nlp get_weather_info get_places_info query
  = (get_places_info loc, [CallPlaces loc]).
Proof.
  intros Hents Hw E.
  rewrite (@handle_found nlp get_weather_info get_places_info query loc E
             (@extract_location_nonempty nlp query loc Hents E)).
  rewrite detect_intent_flags, (no_keyword_existsb Hw).
  destruct (existsb (fun k => contains k (lower query)) places_keywords); reflexivity.
Qed.

Lemma places_only_query_witness :
  handle_user_query None sample_weather sample_places (lit "Tell me about Berlin")
  = (sample_places (lit "berlin"), [CallPlaces (lit "berlin")]).
Proof.
  apply (@places_only_query None sample_weather sample_places
           (lit "Tell me about Berlin") (lit "berlin")).
  - exact no_model_nonempty.
  - apply no_keyword_check. vm_compute. reflexivity.
  - vm_compute. reflexivity.
Defined.

(** X2. Whatever the query, the model and the agents: either no agent is
    called and the answer is the message asking for a city, or a non-empty
    lowercase location was extracted and the calls are the weather agent,
    the places agent, or the weather agent and then the places agent, each
    once and each on that location. *)
Theorem agent_calls_shape (nlp : option ner_model)
    (get_weather_info get_places_info : str -> str) (query : str) :
  (handle_user_query nlp get_weather_info get_places_info query
   = (NO_LOCATION_MESSAGE, [])
   /\ truthy (extract_location nlp query) = false)
  \/
  (exists loc,
     extract_location nlp query = Some loc /\ loc <> [] /\ lower loc = loc /\
     let calls := snd (handle_user_query nlp get_weather_info get_places_info query) in
     calls = [CallWeather loc] \/ calls = [CallPlaces loc]
     \/ calls = [CallWeather loc; CallPlaces loc]).
Proof.
  destruct (truthy (extract_location nlp query)) eqn:T.
  - right. destruct (extract_location nlp query) as [[|c tl]|] eqn:E;
      try discriminate.
    exists (c :: tl). split; [reflexivity|]. split; [discriminate|].
    split; [exact (extract_location_lower _ _ E)|].
    assert (Hne : c :: tl <> []) by discriminate.
    rewrite (@handle_found nlp get_weather_info get_places_info query (c :: tl) E Hne).
    pose proof (detect_intent_some query) as S.
    destruct (detect_intent query) as [[] []]; cbn [fst snd] in *;
      try discriminate; auto.
  - left. split; [|reflexivity]. apply handle_empty_location. exact T.
Qed.

(** ** Intent *)

(** X5. The weather flag is set exactly when the lowercased query holds a
    weather keyword as a substring, and the places flag exactly when it
    holds a places keyword or no weather keyword. *)
Theorem detect_intent_flags_meaning (query : str) :
  (fst (detect_intent query) = true <-> has_keyword weather_keywords query) /\
  (snd (detect_intent query) = true <->
   has_keyword places_keywords query \/ ~ has_keyword weather_keywords query).
Proof.
  rewrite detect_intent_flags. cbn [fst snd]. split.
  - apply has_keyword_existsb.
  - rewrite orb_true_iff, negb_true_iff, has_keyword_existsb. split.
    + intros [H | H]; [left; exact H | right].
      intros Hw. apply has_keyword_existsb in Hw. congruence.
    + intros [H | H]; [left; exact H | right]. apply no_keyword_existsb. exact H.
Qed.

(** ** The NER path *)

(** X4. When the model tags at least one GPE or LOC entity, the NER path
    always answers, and its answer is the lowercased text of one of these
    entities: the regex fallback is not consulted. *)
Theorem nlp_answer_is_an_entity (model : ner_model) (text : str) :
  location_entities (model text) <> [] ->
  exists loc,
    In loc (location_entities (model text)) /\
    extract_location_nlp (Some model) text = Some (lower loc).
Proof.
  intros Hne.
  destruct (extract_location_nlp (Some model) text) as [r|] eqn:E.
  - destruct (nlp_answer_shape _ _ Hne E) as (loc & Hin & ->).
    exists loc. split; [exact Hin | reflexivity].
  - exfalso. cbn [extract_location_nlp] in E.
    destruct (location_entities (model text)) as [|l0 ls]; [congruence|].
    destruct (first_after_keyword (lower text) (l0 :: ls)); discriminate.
Qed.

Lemma nlp_answer_is_an_entity_witness :
  exists loc,
    In loc (location_entities (two_city_model (lit "Paris or Rome"))) /\
    extract_location_nlp (Some two_city_model) (lit "Paris or Rome")
    = Some (lower loc).
Proof.
  apply (@nlp_answer_is_an_entity two_city_model (lit "Paris or Rome")).
  discriminate.
Defined.

(** ** The fallback without a cue *)

Lemma no_cue_no_search (text : str) (p : pattern) :
  cue_starts cue_words None 0 text = [] ->
  In p patterns -> re_search true p text = None.
Proof.
  intros Hno Hp. destruct (re_search true p text) as [g|] eqn:E; [|reflexivity].
  exfalso. unfold re_search in E. apply search_from_sound in E.
  destruct E as (m0 & st & L0 & E). apply match_at_sound in E.
  destruct E as (s1 & s2 & s3 & M1 & _ & _ & _).
  destruct (before_cue_at Hp M1)
    as (mb & a & cue' & wsp' & Lb & L1 & W & Hc' & Hne' & Hsp').
  destruct (@cue_needs_start cue_words text m0 mb cue' wsp' st a s1
              L0 Lb L1 W Hc' Hne' Hsp') as [_ Hpos].
  rewrite Hno in Hpos. destruct Hpos.
Qed.

Lemma try_patterns_none (ps : list pattern) (text_clean : str) :
  (forall p, In p ps -> re_search true p text_clean = None) ->
  try_patterns ps text_clean = None.
Proof.
  induction ps as [|p ps IH]; intros H; cbn [try_patterns]; [reflexivity|].
  rewrite (H p (or_introl eq_refl)). apply IH. intros q Hq. apply H. right. exact Hq.
Qed.

Lemma upper_AZ_case (c : ascii) : cset_mem false [upper_AZ] c = is_upper c.
Proof. by_cases_on_char c. Qed.

Lemma capitals_need_upper (pv : option ascii) (s : str) (st' : mstate) :
  rmatch false capitals_re (MState pv s) Some = Some st' ->
  exists c tl, s = c :: tl /\ is_upper c = true.
Proof.
  intros E. apply rmatch_sound in E. destruct E as (b & M & _).
  unfold capitals_re, capword in M.
  apply Matches_Seq_inv in M. destruct M as (a & M & _).
  apply Matches_Chr_first in M. destruct M as (c & mid & [R _] & Hc).
  cbn [rest] in R. exists c, (mid ++ rest a). split; [exact R|].
  rewrite <- upper_AZ_case. exact Hc.
Qed.

Lemma findall_no_upper (s : str) :
  forallb (fun c => negb (is_upper c)) s = true ->
  forall pv skip, findall_from capitals_re pv s skip = [].
Proof.
  induction s as [|c tl IH]; intros F pv skip; cbn [findall_from].
  - replace (rmatch false capitals_re (MState pv []) Some) with (@None mstate)
      by reflexivity.
    destruct skip; reflexivity.
  - cbn [forallb] in F. apply andb_true_iff in F. destruct F as [Fc F].
    destruct skip as [|n]; [|apply IH; exact F].
    destruct (rmatch false capitals_re (MState pv (c :: tl)) Some) as [st'|] eqn:E;
      [|apply IH; exact F].
    exfalso. apply capitals_need_upper in E. destruct E as (x & tl' & [= <- _] & Hx).
    rewrite Hx in Fc. discriminate.
Qed.

Lemma fallback_absent (text : str) :
  cue_starts cue_words None 0 (strip text) = [] ->
  forallb (fun c => negb (is_upper c)) text = true ->
  extract_location_fallback text = None.
Proof.
  intros Hno Hup. unfold extract_location_fallback.
  rewrite replace_apostrophe, try_patterns_none.
  - unfold re_findall. rewrite (findall_no_upper _ Hup). reflexivity.
  - intros p Hp. apply no_cue_no_search; assumption.
Qed.

(** X6. An ASCII text in whose trimmed form none of the cue words
    in/at/to/near/visit/go/travel begins as a word of its own and runs
    into whitespace, and which holds no capital letter A-Z, has no location
    for the fallback: without the model, the orchestrator then asks for a
    city and calls no agent. *)
Theorem absent_without_cue_or_capital (text : str) :
  forallb is_ascii text = true ->
  cue_starts cue_words None 0 (strip text) = [] ->
  forallb (fun c => negb (is_upper c)) text = true ->
  extract_location_fallback text = None /\
  forall get_weather_info get_places_info,
    handle_user_query None get_weather_info get_places_info text
    = (NO_LOCATION_MESSAGE, []).
Proof.
  intros Hascii Hno Hup. pose proof (fallback_absent text Hno Hup) as E.
  split; [exact E|]. intros gw gp. apply handle_empty_location.
  unfold extract_location. cbn [extract_location_nlp]. rewrite E. reflexivity.
Qed.

Lemma absent_without_cue_or_capital_witness :
  extract_location_fallback (lit "what is the forecast?") = None /\
  forall get_weather_info get_places_info,
    handle_user_query None get_weather_info get_places_info
      (lit "what is the forecast?")
    = (NO_LOCATION_MESSAGE, []).
Proof.
  apply (@absent_without_cue_or_capital (lit "what is the forecast?"));
    vm_compute; reflexivity.
Defined.

(** ** The scan for capitalized words *)

Lemma first_location_found (l : list str) (loc : str) :
  first_location l = Some loc <->
  exists a cap b,
    l = a ++ cap :: b /\ loc = lower cap /\
    str_in (lower cap) NON_LOCATIONS = false /\
    (forall c, In c a -> str_in (lower c) NON_LOCATIONS = true).
Proof.
  revert loc. induction l as [|x l IH]; intros loc; cbn [first_location].
  - split; [discriminate|]. intros (a & cap & b & E & _). destruct a; discriminate.
  - destruct (str_in (lower x) NON_LOCATIONS) eqn:Ex; cbn [negb].
    + rewrite IH. split.
      * intros (a & cap & b & -> & Hl & Hc & Ha). exists (x :: a), cap, b.
        repeat split; try assumption. intros c [<- | Hin]; [exact Ex | exact (Ha c Hin)].
      * intros ([|y a] & cap & b & E & Hl & Hc & Ha).
        -- injection E as -> _. congruence.
        -- injection E as -> ->. exists a, cap, b. repeat split; try assumption.
           intros c Hin. apply Ha. right. exact Hin.
    + split.
      * intros [= <-]. exists [], x, l. repeat split; try assumption.
        intros c [].
      * intros ([|y a] & cap & b & E & Hl & Hc & Ha).
        -- injection E as -> _. rewrite Hl. reflexivity.
        -- injection E as -> _. rewrite (Ha y (or_introl eq_refl)) in Ex.
           discriminate.
Qed.

Lemma first_location_absent (l : list str) :
  first_location l = None <->
  forall c, In c l -> str_in (lower c) NON_LOCATIONS = true.
Proof.
  induction l as [|x l IH]; cbn [first_location].
  - split; [intros _ c [] | reflexivity].
  - destruct (str_in (lower x) NON_LOCATIONS) eqn:Ex; cbn [negb].
    + rewrite IH. split.
      * intros H c [<- | Hin]; [exact Ex | exact (H c Hin)].
      * intros H c Hin. apply H. right. exact Hin.
    + split; [discriminate|]. intros H.
      rewrite (H x (or_introl eq_refl)) in Ex. discriminate.
Qed.

Lemma rev_cut (l a b : list str) (x : str) :
  rev l = a ++ x :: b <-> l = rev b ++ x :: rev a.
Proof.
  split; intros E.
  - rewrite <- (rev_involutive l), E, rev_app_distr. cbn [rev].
    rewrite <- app_assoc. reflexivity.
  - rewrite E, rev_app_distr. cbn [rev]. rewrite !rev_involutive, <- app_assoc.
    reflexivity.
Qed.

(** X7. When the patterns give nothing, the answer is the lowercased last
    capitalized run of the text whose lowercase form is not in the list of
    greetings and fillers: every run after it is in that list; and there is
    no answer exactly when every capitalized run is in it. *)
Theorem last_resort_scan (text : str) :
  try_patterns patterns (strip text) = None ->
  (forall loc,
     extract_location_fallback text = Some loc <->
     exists before cap after,
       re_findall capitals_re text = before ++ cap :: after /\
       loc = lower cap /\
       ~ In (lower cap) NON_LOCATIONS /\
       (forall c, In c after -> In (lower c) NON_LOCATIONS)) /\
  (extract_location_fallback text = None <->
   forall c, In c (re_findall capitals_re text) -> In (lower c) NON_LOCATIONS).
Proof.
  intros Hnone. unfold extract_location_fallback.
  rewrite replace_apostrophe, Hnone. split.
  - intros loc. rewrite first_location_found. split.
    + intros (a & cap & b & E & Hl & Hc & Ha). apply rev_cut in E.
      exists (rev b), cap, (rev a). split; [exact E|]. split; [exact Hl|]. split.
      * intros Hin. apply str_in_In in Hin. congruence.
      * intros c Hin. apply (proj1 (str_in_In _ _)), Ha, (proj2 (in_rev _ _)), Hin.
    + intros (before & cap & after & E & Hl & Hc & Ha).
      exists (rev after), cap, (rev before). split.
      * apply rev_cut. rewrite !rev_involutive. exact E.
      * split; [exact Hl|]. split.
        -- apply not_true_is_false. intros Hin. apply Hc, str_in_In, Hin.
        -- intros c Hin.
           apply (proj2 (str_in_In _ _)), Ha, (proj2 (in_rev _ _)), Hin.
  - rewrite first_location_absent. split.
    + intros H c Hin. apply (proj1 (str_in_In _ _)), H, (proj1 (in_rev _ _)), Hin.
    + intros H c Hin. apply (proj2 (str_in_In _ _)), H, (proj2 (in_rev _ _)), Hin.
Qed.

Lemma last_resort_scan_witness :
  extract_location_fallback (lit "Berlin please. Thanks") = Some (lit "berlin").
Proof.
  apply (proj1 (@last_resort_scan (lit "Berlin please. Thanks") eq_refl)
           (lit "berlin")).
  exists [], (lit "Berlin"), [lit "Thanks"]. split; [vm_compute; reflexivity|].
  split; [reflexivity|]. split.
  - apply not_in_check. vm_compute. reflexivity.
  - intros c [<- | []]. vm_compute. tauto.
Defined.

(** ** The characters of the answers *)

Lemma Matches_within (icase : bool) (P : ascii -> bool) (r : regex) (a b : mstate) :
  Matches icase r a b -> sets_within icase P r ->
  exists m, Later a m b /\ forallb P m = true.
Proof.
  intros M. induction M as [st | items pv c tl Hc | r1 r2 a b c _ IH1 _ IH2
                           | r1 r2 a b _ IH | r1 r2 a b _ IH | g r st
                           | g r a b c _ IH1 _ _ IH2 | st _ | st _];
    cbn [sets_within]; intros H.
  - exists []. split; [apply Later_refl | reflexivity].
  - exists [c]. split; [apply Later_one|]. cbn [forallb]. rewrite (H c Hc). reflexivity.
  - destruct (IH1 (proj1 H)) as (m1 & L1 & F1). destruct (IH2 (proj2 H)) as (m2 & L2 & F2).
    exists (m1 ++ m2). split; [exact (Later_trans L1 L2)|].
    rewrite forallb_app, F1, F2. reflexivity.
  - exact (IH (proj1 H)).
  - exact (IH (proj2 H)).
  - exists []. split; [apply Later_refl | reflexivity].
  - destruct (IH1 H) as (m1 & L1 & F1). destruct (IH2 H) as (m2 & L2 & F2).
    exists (m1 ++ m2). split; [exact (Later_trans L1 L2)|].
    rewrite forallb_app, F1, F2. reflexivity.
  - exists []. split; [apply Later_refl | reflexivity].
  - exists []. split; [apply Later_refl | reflexivity].
Qed.

Lemma letters_case (c : ascii) :
  cset_mem false [upper_AZ; lower_az] c = is_letter c.
Proof. by_cases_on_char c. Qed.

Lemma space_set (icase : bool) (c : ascii) : cset_mem icase [CSpace] c = is_space c.
Proof. cbn [cset_mem existsb item_mem]. apply orb_false_r. Qed.

Lemma upper_is_letter (c : ascii) : is_upper c = true -> is_letter c = true.
Proof. by_cases_on_char c. Qed.

Lemma group_within (p : pattern) :
  In p patterns -> sets_within true letter_or_space (p_group p).
Proof.
  assert (Hl : forall c, cset_mem true [upper_AZ] c = true -> letter_or_space c = true).
  { intros c H. rewrite upper_AZ_icase in H. unfold letter_or_space. rewrite H.
    reflexivity. }
  assert (Hc : forall c, cset_mem true [upper_AZ; lower_az; CSpace] c = true ->
                         letter_or_space c = true).
  { intros c H. rewrite class_icase in H. exact H. }
  assert (Hw : forall c, cset_mem true [upper_AZ; lower_az] c = true ->
                         letter_or_space c = true).
  { intros c H. rewrite letters_icase in H. unfold letter_or_space. rewrite H.
    reflexivity. }
  assert (Hs : forall c, cset_mem true [CSpace] c = true -> letter_or_space c = true).
  { intros c H. rewrite space_set in H. unfold letter_or_space. rewrite H.
    apply orb_true_r. }
  intros [<- | [<- | [<- | []]]]; cbn; repeat split; assumption.
Qed.

Lemma capitals_within : sets_within false letter_or_space capitals_re.
Proof.
  assert (Hl : forall c, cset_mem false [upper_AZ] c = true -> letter_or_space c = true).
  { intros c H. rewrite upper_AZ_case in H. unfold letter_or_space.
    rewrite (upper_is_letter _ H). reflexivity. }
  assert (Hw : forall c, cset_mem false [upper_AZ; lower_az] c = true ->
                         letter_or_space c = true).
  { intros c H. rewrite letters_case in H. unfold letter_or_space. rewrite H.
    reflexivity. }
  assert (Hs : forall c, cset_mem false [CSpace] c = true -> letter_or_space c = true).
  { intros c H. rewrite space_set in H. unfold letter_or_space. rewrite H.
    apply orb_true_r. }
  cbn. repeat split; assumption.
Qed.

(** What a pattern finds is made of letters and whitespace. *)
Lemma phrase_chars (p : pattern) (text g : str) :
  In p patterns -> re_search true p text = Some g ->
  forallb letter_or_space g = true.
Proof.
  intros Hp E. unfold re_search in E. apply search_from_sound in E.
  destruct E as (m0 & st & _ & E). apply match_at_sound in E.
  destruct E as (s1 & s2 & s3 & _ & M2 & _ & ->).
  destruct (@Matches_within true letter_or_space (p_group p) s1 s2 M2
              (@group_within p Hp)) as (m & L & F).
  rewrite (Later_span L). exact F.
Qed.

Lemma findall_In (r : regex) (s : str) :
  forall pv skip cap,
    In cap (findall_from r pv s skip) ->
    exists m0 a b,
      Later (MState pv s) m0 a /\ Matches false r a b /\ cap = span a b.
Proof.
  induction s as [|c tl IH]; intros pv skip cap; cbn [findall_from].
  - destruct skip as [|n]; [|intros []].
    destruct (rmatch false r (MState pv []) Some) as [st'|] eqn:E; [|intros []].
    intros [<- | []]. apply rmatch_sound in E. destruct E as (b & M & _).
    exists [], (MState pv []), b. split; [apply Later_refl|]. split; [exact M|].
    unfold span. cbn [rest]. destruct (0 - length (rest b)); reflexivity.
  - assert (Hnext : forall pv' skip', In cap (findall_from r pv' tl skip') ->
              pv' = Some c ->
              exists m0 a b,
                Later (MState pv (c :: tl)) m0 a /\ Matches false r a b /\
                cap = span a b).
    { intros pv' skip' H ->. destruct (IH _ _ _ H) as (m0 & a & b & L & M & Ec).
      exists (c :: m0), a, b. split; [|split; assumption].
      eapply Later_cons; [reflexivity | exact L]. }
    destruct skip as [|n]; [|intros H; exact (Hnext _ _ H eq_refl)].
    destruct (rmatch false r (MState pv (c :: tl)) Some) as [st'|] eqn:E;
      [|intros H; exact (Hnext _ _ H eq_refl)].
    intros [<- | H]; [|exact (Hnext _ _ H eq_refl)].
    apply rmatch_sound in E. destruct E as (b & M & [= ->]).
    exists [], (MState pv (c :: tl)), st'. split; [apply Later_refl|].
    split; [exact M | reflexivity].
Qed.

(** A capitalized run is a part of the text that begins with a capital
    letter, holds letters and whitespace only, and has two characters at
    least. *)
Lemma capitalized_run_shape (text cap : str) :
  In cap (re_findall capitals_re text) ->
  Substring cap text /\
  (exists c tl, cap = c :: tl /\ is_upper c = true) /\
  forallb letter_or_space cap = true /\
  2 <= length cap.
Proof.
  intros Hin. unfold re_findall in Hin. apply findall_In in Hin.
  destruct Hin as (m0 & a & b & [R0 _] & M & ->). cbn [rest] in R0.
  destruct (@Matches_within false letter_or_space capitals_re a b M
              capitals_within) as (m & L & F).
  rewrite (Later_span L). destruct L as [R _].
  split; [exists m0, (rest b); rewrite R0, R; reflexivity|].
  unfold capitals_re, capword in M.
  apply Matches_Seq_inv in M. destruct M as (x & M1 & M2).
  apply Matches_Seq_inv in M1. destruct M1 as (y & Mc & Mp).
  apply Matches_Chr_inv in Mc. destruct Mc as (c0 & L0 & Hc0).
  apply Matches_Plus_Chr in Mp. destruct Mp as (c1 & m1 & L1 & _ & _).
  apply Matches_Later in M2. destruct M2 as [m2 L2].
  pose proof (Later_trans (Later_trans L0 L1) L2) as [R' _].
  rewrite R in R'. apply app_inv_tail in R'. subst m.
  rewrite upper_AZ_case in Hc0. split; [|split; [exact F|]].
  - exists c0, ((c1 :: m1) ++ m2). split; [reflexivity | exact Hc0].
  - cbn [app length]. lia.
Qed.

(** X9. Every capitalized run that the scan collects is a part of the
    text that begins with a capital letter A-Z, is made of letters and
    whitespace, and has at least two characters; so when the patterns give
    nothing, the answer occurs in the lowercased text. *)
Theorem capitalized_runs_come_from_text (text : str) :
  (forall cap,
     In cap (re_findall capitals_re text) ->
     Substring cap text /\
     (exists c tl, cap = c :: tl /\ is_upper c = true) /\
     forallb letter_or_space cap = true /\
     2 <= length cap) /\
  (try_patterns patterns (strip text) = None ->
   forall loc,
     extract_location_fallback text = Some loc -> Substring loc (lower text)).
Proof.
  split; [intros cap; apply capitalized_run_shape|].
  intros Hnone loc. unfold extract_location_fallback.
  rewrite replace_apostrophe, Hnone. intros H.
  apply first_location_shape in H. destruct H as (cap & Hin & -> & _).
  apply Substring_lower. apply (proj2 (in_rev _ _)) in Hin.
  apply capitalized_run_shape. exact Hin.
Qed.

Lemma capitalized_runs_come_from_text_witness :
  Substring (lit "berlin") (lower (lit "Tell me about Berlin")).
Proof.
  apply (proj2 (capitalized_runs_come_from_text (lit "Tell me about Berlin"))
           eq_refl (lit "berlin")).
  vm_compute. reflexivity.
Defined.

Lemma lstrip_In (c : ascii) (s : str) : In c (lstrip s) -> In c s.
Proof.
  induction s as [|x s IH]; cbn [lstrip]; [intros []|].
  destruct (is_space x); [|intros H; exact H]. intros H. right. exact (IH H).
Qed.

Lemma strip_In (c : ascii) (s : str) : In c (strip s) -> In c s.
Proof.
  unfold strip, rstrip. intros H. apply (proj2 (in_rev _ _)) in H.
  apply lstrip_In in H. apply (proj2 (in_rev _ _)) in H.
  apply lstrip_In in H. exact H.
Qed.

Lemma split_aux_In (s : str) :
  forall cur w c, In w (split_aux cur s) -> In c w -> In c cur \/ In c s.
Proof.
  induction s as [|x s IH]; intros cur w c; cbn [split_aux].
  - destruct cur as [|y cur]; [intros []|]. intros [<- | []] Hc.
    left. apply (proj2 (in_rev _ _)). exact Hc.
  - destruct (is_space x).
    + assert (Hrest : In w (split_aux [] s) -> In c w -> In c cur \/ In c (x :: s)).
      { intros Hw Hc. destruct (IH [] w c Hw Hc) as [[] | H]. right. right. exact H. }
      destruct cur as [|y cur]; [exact Hrest|].
      intros [<- | Hw] Hc; [|exact (Hrest Hw Hc)].
      left. apply (proj2 (in_rev _ _)). exact Hc.
    + intros Hw Hc. destruct (IH (x :: cur) w c Hw Hc) as [[<- | H] | H].
      * right. left. reflexivity.
      * left. exact H.
      * right. right. exact H.
Qed.

Lemma join_In (sep : str) (l : list str) (c : ascii) :
  In c (join sep l) -> In c sep \/ exists w, In w l /\ In c w.
Proof.
  induction l as [|x l IH]; [intros []|].
  destruct l as [|y l].
  - cbn [join]. intros H. right. exists x. split; [left; reflexivity | exact H].
  - rewrite join_cons. intros H. apply in_app_or in H. destruct H as [H | H].
    + right. exists x. split; [left; reflexivity | exact H].
    + apply in_app_or in H. destruct H as [H | H]; [left; exact H|].
      destruct (IH H) as [Hs | (w & Hw & Hc)]; [left; exact Hs|].
      right. exists w. split; [right; exact Hw | exact Hc].
Qed.

(** Cleaning brings in no character but the space between two words. *)
Lemma clean_candidate_In (group1 : str) (c : ascii) :
  In c (clean_candidate group1) -> In c group1 \/ c = " "%char.
Proof.
  unfold clean_candidate. intros H. apply strip_In in H. apply join_In in H.
  destruct H as [[<- | []] | (w & Hw & Hc)]; [right; reflexivity|].
  left. apply filter_In in Hw. destruct Hw as [Hw _].
  destruct (@split_aux_In (strip group1) [] w c Hw Hc) as [[] | H].
  apply strip_In. exact H.
Qed.

Lemma lower_char_class (c : ascii) :
  letter_or_space c = true -> lower_or_space (lower_char c) = true.
Proof. by_cases_on_char c. Qed.

Lemma lower_class (s : str) :
  forallb letter_or_space s = true -> forallb lower_or_space (lower s) = true.
Proof.
  induction s as [|c s IH]; [reflexivity|].
  change (lower (c :: s)) with (lower_char c :: lower s). cbn [forallb].
  intros H. apply andb_true_iff in H. destruct H as [Hc Hs].
  rewrite (lower_char_class _ Hc), (IH Hs). reflexivity.
Qed.

(** X8. On ASCII text, an answer of the fallback has at least two
    characters, and each of them is a lowercase letter a-z or whitespace:
    no digit, no punctuation and no capital letter is returned. *)
Theorem fallback_answer_shape (text loc : str) :
  forallb is_ascii text = true ->
  extract_location_fallback text = Some loc ->
  2 <= length loc /\ forallb lower_or_space loc = true.
Proof.
  intros Hascii. unfold extract_location_fallback. rewrite replace_apostrophe.
  destruct (try_patterns patterns (strip text)) as [r|] eqn:E.
  - intros [= <-]. apply try_patterns_first in E.
    destruct E as (i & p & g & Hn & Hs & Hl & -> & _). split.
    + rewrite lower_length. lia.
    + apply lower_class. apply forallb_forall. intros c Hc.
      pose proof (@phrase_chars p (strip text) g (nth_error_In _ _ Hn) Hs) as F.
      destruct (@clean_candidate_In g c Hc) as [Hg | ->]; [|reflexivity].
      exact (proj1 (forallb_forall _ _) F c Hg).
  - intros H. apply first_location_shape in H. destruct H as (cap & Hin & -> & _).
    apply (proj2 (in_rev _ _)) in Hin. apply capitalized_run_shape in Hin.
    destruct Hin as (_ & _ & F & Hlen). split.
    + rewrite lower_length. exact Hlen.
    + apply lower_class. exact F.
Qed.

Lemma fallback_answer_shape_witness :
  2 <= length (lit "new york") /\ forallb lower_or_space (lit "new york") = true.
Proof.
  apply (@fallback_answer_shape (lit "  Trip to the   New York!  ") (lit "new york"));
    vm_compute; reflexivity.
Defined.

(** ** Cleaning the captured phrase *)

Lemma token_head (w : str) :
  is_token w -> exists c tl, w = c :: tl /\ is_space c = false.
Proof.
  intros [Hne F]. destruct w as [|c tl]; [congruence|]. exists c, tl.
  split; [reflexivity|]. cbn [forallb] in F. apply andb_true_iff in F.
  destruct F as [Fc _]. unfold nonspace in Fc. apply negb_true_iff. exact Fc.
Qed.

Lemma token_rev (w : str) : is_token w -> is_token (rev w).
Proof.
  intros [Hne F]. split.
  - intros E. apply Hne. rewrite <- (rev_involutive w), E. reflexivity.
  - apply forallb_forall. intros x Hx. apply (proj2 (in_rev _ _)) in Hx.
    exact (proj1 (forallb_forall _ _) F x Hx).
Qed.

Lemma join_tokens_head (l : list str) :
  Forall is_token l -> l <> [] ->
  exists c tl, join (lit " ") l = c :: tl /\ is_space c = false.
Proof.
  intros F Hne. destruct l as [|w l]; [congruence|].
  inversion F as [|w0 l0 Tw Fl]; subst.
  destruct (token_head Tw) as (c & tl & -> & Hc).
  destruct l as [|w2 l].
  - exists c, tl. split; [reflexivity | exact Hc].
  - rewrite join_cons. exists c, (tl ++ lit " " ++ join (lit " ") (w2 :: l)).
    split; [reflexivity | exact Hc].
Qed.

Lemma join_tokens_last (l : list str) :
  Forall is_token l -> l <> [] ->
  exists c tl, rev (join (lit " ") l) = c :: tl /\ is_space c = false.
Proof.
  induction l as [|w l IH]; intros F Hne; [congruence|].
  inversion F as [|w0 l0 Tw Fl]; subst.
  destruct l as [|w2 l].
  - cbn [join]. apply token_head, token_rev, Tw.
  - rewrite join_cons, !rev_app_distr.
    destruct (IH Fl) as (c & tl & E & Hc); [discriminate|].
    rewrite E. exists c, ((tl ++ rev (lit " ")) ++ rev w).
    split; [reflexivity | exact Hc].
Qed.

Lemma strip_join_tokens (l : list str) :
  Forall is_token l -> strip (join (lit " ") l) = join (lit " ") l.
Proof.
  intros F. destruct l as [|w l]; [reflexivity|].
  assert (Hne : w :: l <> []) by discriminate.
  destruct (join_tokens_head F Hne) as (c & tl & E & Hc).
  destruct (join_tokens_last F Hne) as (c' & tl' & E' & Hc').
  unfold strip, rstrip. rewrite E. cbn [lstrip]. rewrite Hc, <- E, E'.
  cbn [lstrip]. rewrite Hc', <- E'. apply rev_involutive.
Qed.

Lemma filter_twice (f : str -> bool) (l : list str) :
  filter f (filter f l) = filter f l.
Proof.
  induction l as [|x l IH]; [reflexivity|]. cbn [filter].
  destruct (f x) eqn:E; [|exact IH]. cbn [filter]. rewrite E, IH. reflexivity.
Qed.

Lemma kept_words_are_tokens (s : str) :
  Forall is_token (filter not_filler (split s)).
Proof.
  assert (F : Forall is_token (split s)) by (apply split_aux_tokens; reflexivity).
  apply Forall_forall. intros x Hx. apply filter_In in Hx.
  exact (proj1 (Forall_forall _ _) F x (proj1 Hx)).
Qed.

(** X10. Cleaning a captured phrase keeps its words that are no filler
    words, in order, joined by single spaces, whatever whitespace stood
    between and around them; cleaning what is already clean changes
    nothing. *)
Theorem clean_candidate_normal_form (group1 : str) :
  clean_candidate group1 = join (lit " ") (filter not_filler (split group1)) /\
  clean_candidate (clean_candidate group1) = clean_candidate group1.
Proof.
  assert (Hnf : forall g,
            clean_candidate g = join (lit " ") (filter not_filler (split g))).
  { intros g. unfold clean_candidate. fold not_filler.
    rewrite split_strip. apply strip_join_tokens, kept_words_are_tokens. }
  split; [apply Hnf|].
  rewrite (Hnf (clean_candidate group1)), (Hnf group1).
  rewrite split_join by apply kept_words_are_tokens.
  rewrite filter_twice. reflexivity.
Qed.

(** ** An entity that the text does not hold *)

Lemma find_from_absent (sub : str) (s : str) :
  forall i, ~ Substring sub s -> find_from i sub s = (-1)%Z.
Proof.
  induction s as [|c tl IH]; intros i Hno; cbn [find_from].
  - destruct (starts_with sub []) eqn:E; [|reflexivity].
    exfalso. apply Hno. apply starts_with_app in E. destruct E as [b E].
    exists [], b. exact E.
  - destruct (starts_with sub (c :: tl)) eqn:E.
    + exfalso. apply Hno. apply starts_with_app in E. destruct E as [b E].
      exists [], b. exact E.
    + apply IH. intros (a & b & E'). apply Hno. exists (c :: a), b.
      rewrite E'. reflexivity.
Qed.

(** X11. For an entity whose lowercased text does not occur in the
    lowercased text, [find] gives -1 and the slice [[:-1]] is taken: the
    keyword test then looks at the whole text but its last character. *)
Theorem keyword_test_for_absent_entity (text_lower loc : str) :
  ~ Substring (lower loc) text_lower ->
  keyword_before text_lower loc
  = existsb (fun keyword =>
               contains keyword (firstn (length text_lower - 1) text_lower))
            location_keywords.
Proof.
  intros Hno. unfold keyword_before, find.
  rewrite (find_from_absent 0 Hno). reflexivity.
Qed.

Lemma not_Substring_check (sub s : str) :
  contains sub s = false -> ~ Substring sub s.
Proof. intros E H. apply contains_Substring in H. congruence. Qed.

Lemma keyword_test_for_absent_entity_witness :
  keyword_before (lit "we go to rome") (lit "Paris") = true.
Proof.
  rewrite (@keyword_test_for_absent_entity (lit "we go to rome") (lit "Paris")).
  - vm_compute. reflexivity.
  - apply not_Substring_check. vm_compute. reflexivity.
Defined.

(** ** The model and the fallback *)

Lemma location_entities_none (doc : list entity) :
  (forall ent, In ent doc ->
     ent_label ent <> lit "GPE" /\ ent_label ent <> lit "LOC") ->
  location_entities doc = [].
Proof.
  unfold location_entities. induction doc as [|e doc IH]; intros H; [reflexivity|].
  cbn [filter].
  replace (str_in (ent_label e) [lit "GPE"; lit "LOC"]) with false.
  - apply IH. intros ent Hin. apply H. right. exact Hin.
  - symmetry. apply not_true_is_false. intros E. apply str_in_In in E.
    destruct (H e (or_introl eq_refl)) as [Hg Hl].
    destruct E as [E | [E | []]]; [apply Hg | apply Hl]; symmetry; exact E.
Qed.

(** X12. When the model is missing, or tags in the text no entity
    labelled GPE or LOC (whatever else it tags), extraction is exactly the
    regex fallback: entities of other kinds never become the location. *)
Theorem model_without_locations_defers (nlp : option ner_model) (text : str) :
  (nlp = None \/
   exists model,
     nlp = Some model /\
     forall ent, In ent (model text) ->
       ent_label ent <> lit "GPE" /\ ent_label ent <> lit "LOC") ->
  extract_location nlp text = extract_location_fallback text.
Proof.
  unfold extract_location. intros [-> | (model & -> & H)]; cbn [extract_location_nlp].
  - reflexivity.
  - rewrite (location_entities_none _ H). reflexivity.
Qed.

Lemma model_without_locations_defers_witness :
  extract_location (Some date_model) (lit "Monday in Rome")
  = extract_location_fallback (lit "Monday in Rome").
Proof.
  apply (@model_without_locations_defers (Some date_model) (lit "Monday in Rome")).
  right. exists date_model. split; [reflexivity|].
  intros ent [<- | []]. split; discriminate.
Defined.

(** X13. An entity with which the lowercased text begins is never taken
    by the keyword rule: nothing stands before it. *)
Theorem entity_at_start_not_preceded (text_lower loc : str) :
  starts_with (lower loc) text_lower = true ->
  keyword_before text_lower loc = false.
Proof.
  intros E. unfold keyword_before, find.
  destruct text_lower as [|c tl]; cbn [find_from]; rewrite E; reflexivity.
Qed.

Lemma entity_at_start_not_preceded_witness :
  keyword_before (lit "paris is nice to visit") (lit "Paris") = false.
Proof.
  apply (@entity_at_start_not_preceded (lit "paris is nice to visit") (lit "Paris")).
  vm_compute. reflexivity.
Defined.
